(** * Verification of the image pipeline of the oric recognition app

    Shallow embedding of:
    - [convertCoordinates] (src/app/recognition/page.tsx),
    - [preprocessImage], [applyImageFilters] and the pixel filters
      (src/utils/image-processing.ts),
    - the in-flight flag of [detectObjects] / [classifyImage]
      (src/utils/ml-models.ts).

    JavaScript numbers are modelled as rationals [Q] where the code does
    arithmetic on them, and as integers [Z] where they are pixel values of a
    [Uint8ClampedArray] or integral image dimensions. *)

From Stdlib Require Import QArith Qminmax Qround ZArith Lia String Bool.
From Stdlib Require Finite.
From Stdlib Require Import Lqa Qfield.
From stdpp Require Import base list.

Open Scope Z_scope.

(* ------------------------------------------------------------------ *)
(** ** Strings: [String.prototype.includes] *)

Fixpoint prefixb (p s : string) : bool :=
  match p, s with
  | EmptyString, _ => true
  | String c p', String d s' => Ascii.eqb c d && prefixb p' s'
  | String _ _, EmptyString => false
  end.

(** [s.includes(p)]: [p] occurs in [s] at some position. *)
Fixpoint includes (s p : string) : bool :=
  prefixb p s ||
  match s with
  | EmptyString => false
  | String _ s' => includes s' p
  end.

(* ------------------------------------------------------------------ *)
(** ** [convertCoordinates] (page.tsx) *)

Module Coords.
Open Scope Q_scope.

(** [recognition.bbox : number[]]; both detector families deliver four
    numbers, destructured as [const [a, b, c, d] = recognition.bbox]. *)
Record Recognition := { bbox0 : Q; bbox1 : Q; bbox2 : Q; bbox3 : Q }.

Record CanvasDimensions := { cwidth : Q; cheight : Q }.

Record ScalingParameters :=
  { scaledWidth : Q; scaledHeight : Q; offsetX : Q; offsetY : Q }.

Record Coordinates := { x : Q; y : Q; width : Q; height : Q }.

Definition convertCoordinates (recognition : Recognition) (modelId : string)
    (canvas : CanvasDimensions) (scaling : ScalingParameters) : Coordinates :=
  if includes modelId "detr" || includes modelId "yolos" then
    let xmin := bbox0 recognition in
    let ymin := bbox1 recognition in
    let xmax := bbox2 recognition in
    let ymax := bbox3 recognition in
    let scaleX := cwidth canvas / scaledWidth scaling in
    let scaleY := cheight canvas / scaledHeight scaling in
    {| x := xmin * scaleX;
       y := ymin * scaleY;
       width := (xmax - xmin) * scaleX;
       height := (ymax - ymin) * scaleY |}
  else
    let x0 := bbox0 recognition in
    let y0 := bbox1 recognition in
    let w0 := bbox2 recognition in
    let h0 := bbox3 recognition in
    let scaleX := cwidth canvas / scaledWidth scaling in
    let scaleY := cheight canvas / scaledHeight scaling in
    {| x := (x0 - offsetX scaling) * scaleX;
       y := (y0 - offsetY scaling) * scaleY;
       width := w0 * scaleX;
       height := h0 * scaleY |}.

(** The reference mapping as the specification words it: the corner-pair
    family for model ids containing "detr" or "yolos", the origin+extent
    family otherwise. *)
Definition is_corner_pair_model (modelId : string) : bool :=
  includes modelId "detr" || includes modelId "yolos".

Definition reference_mapping (r : Recognition) (modelId : string)
    (destWidth destHeight : Q) (s : ScalingParameters) : Coordinates :=
  let scaleX := destWidth / scaledWidth s in
  let scaleY := destHeight / scaledHeight s in
  if is_corner_pair_model modelId then
    {| x := bbox0 r * scaleX; y := bbox1 r * scaleY;
       width := (bbox2 r - bbox0 r) * scaleX;
       height := (bbox3 r - bbox1 r) * scaleY |}
  else
    {| x := (bbox0 r - offsetX s) * scaleX; y := (bbox1 r - offsetY s) * scaleY;
       width := bbox2 r * scaleX; height := bbox3 r * scaleY |}.

(** Pointwise [Qeq] on boxes. *)
Definition coords_eq (a b : Coordinates) : Prop :=
  x a == x b /\ y a == y b /\ width a == width b /\ height a == height b.

(** The box lies inside [[0, W] x [0, H]]. *)
Definition inside (c : Coordinates) (W H : Q) : Prop :=
  0 <= x c /\ x c <= W - width c /\ 0 <= y c /\ y c <= H - height c /\
  width c <= W - x c /\ height c <= H - y c.

End Coords.

(* ------------------------------------------------------------------ *)
(** ** Typed arrays and JS number helpers (image-processing.ts) *)

Module Px.

(** A [Uint8ClampedArray] as the list of its cells. Reads inside the array
    return the cell; the filters only read inside the array when its length
    is [width * height], and out-of-range reads (JS [undefined]) are read as
    0 here. Writes outside the array are ignored by typed arrays, as by
    stdpp's list insert. *)
Definition rd (l : list Z) (i : Z) : Z :=
  if i <? 0 then 0 else default 0 (l !! Z.to_nat i).

Definition wr (l : list Z) (i : Z) (v : Z) : list Z :=
  if i <? 0 then l else <[Z.to_nat i := v]> l.

(** [for (let k = a; k < b; k++)] *)
Definition zrange (a b : Z) : list Z :=
  map (fun k => a + Z.of_nat k) (seq 0 (Z.to_nat (b - a))).

(** [for (let k = a; k < b; k += s)] for a positive step [s]; with a step
    [<= 0] the JS loop does not terminate (the only caller passes 8). *)
Definition zsteps (a b s : Z) : list Z :=
  if s <=? 0 then []
  else map (fun k => a + s * Z.of_nat k) (seq 0 (Z.to_nat ((b - a + s - 1) / s))).

Open Scope Q_scope.

Definition Qlt_bool (a b : Q) : bool := negb (Qle_bool b a).

Definition Qclamp255 (q : Q) : Q := Qmax 0 (Qmin 255 q).

(** [Math.round]: [floor(q + 1/2)]. *)
Definition math_round (q : Q) : Z := Qfloor (q + (1#2)).

(** ToUint8Clamp, the conversion of a store into a [Uint8ClampedArray]:
    clamp to [0, 255], then round half to even. *)
Definition to_uint8_clamp (q : Q) : Z :=
  if Qle_bool q 0 then 0%Z
  else if Qle_bool 255 q then 255%Z
  else
    let f := Qfloor q in
    let d := q - inject_Z f in
    if Qlt_bool d (1#2) then f
    else if Qlt_bool (1#2) d then (f + 1)%Z
    else if Z.even f then f else (f + 1)%Z.

End Px.

(* ------------------------------------------------------------------ *)
(** ** Pixel filters (image-processing.ts) *)

Module Filters.
Import Px.

(** [convertToGrayscale] *)
Definition convertToGrayscale (data : list Z) : list Z :=
  let n := Z.of_nat (length data) in
  let g0 := repeat 0%Z (Z.to_nat (n / 4)) in
  fold_left (fun g k =>
      let i := (4 * k)%Z in
      wr g k (to_uint8_clamp (inject_Z (math_round
        ((299#1000) * inject_Z (rd data i) + (587#1000) * inject_Z (rd data (i + 1))
         + (114#1000) * inject_Z (rd data (i + 2)))))))
    (zrange 0 ((n + 3) / 4)) g0.

(** [values.sort((a, b) => a - b)] on the collected numbers. *)
Fixpoint insert_sorted (v : Z) (l : list Z) : list Z :=
  match l with
  | [] => [v]
  | w :: l' => if (v <=? w)%Z then v :: l else w :: insert_sorted v l'
  end.

Definition sort_numbers (l : list Z) : list Z := fold_right insert_sorted [] l.

(** [applyMedianFilter] *)
Definition applyMedianFilter (grayscale : list Z) (width height radius : Z)
    (isDetection : bool) : list Z :=
  let filterRadius := if isDetection then 1%Z else radius in
  let temp := grayscale in
  fold_left (fun result y =>
    fold_left (fun result x =>
      let values :=
        flat_map (fun dy =>
          map (fun dx => rd temp ((y + dy) * width + (x + dx)))
            (zrange (- filterRadius) (filterRadius + 1)))
          (zrange (- filterRadius) (filterRadius + 1)) in
      let sorted := sort_numbers values in
      wr result (y * width + x)
        (default 0%Z (sorted !! (length sorted / 2)%nat)))
      (zrange filterRadius (width - filterRadius)) result)
    (zrange filterRadius (height - filterRadius)) grayscale.

Definition sharpen_kernel (isDetection : bool) : list (list Q) :=
  if isDetection then
    [[0; -(1#2); 0]; [-(1#2); 3; -(1#2)]; [0; -(1#2); 0]]
  else
    [[0; -1; 0]; [-1; 5; -1]; [0; -1; 0]].

Definition kernel_at (k : list (list Q)) (ky kx : Z) : Q :=
  default 0 (k !! Z.to_nat ky ≫= fun row => row !! Z.to_nat kx).

(** [applySharpeningFilter] *)
Definition applySharpeningFilter (grayscale : list Z) (width height : Z)
    (isDetection : bool) : list Z :=
  let kernel := sharpen_kernel isDetection in
  let temp := grayscale in
  fold_left (fun result y =>
    fold_left (fun result x =>
      let sum :=
        fold_left (fun s ky =>
          fold_left (fun s kx =>
            s + inject_Z (rd temp ((y + ky - 1) * width + (x + kx - 1)))
                * kernel_at kernel ky kx)
            (zrange 0 3) s)
          (zrange 0 3) 0 in
      wr result (y * width + x) (to_uint8_clamp (Qclamp255 sum)))
      (zrange 1 (width - 1)) result)
    (zrange 1 (height - 1)) grayscale.

(** [calculateBlockStats]: [{ sum, min, max }], with [min] starting at 255
    and [max] at 0. *)
Definition calculateBlockStats (grayscale : list Z) (width bx by_ bw bh : Z)
    : Z * Z * Z :=
  fold_left (fun st y =>
    fold_left (fun '(sum, mn, mx) x =>
      let value := rd grayscale ((by_ + y) * width + (bx + x)) in
      ((sum + value)%Z, Z.min mn value, Z.max mx value))
      (zrange 0 bw) st)
    (zrange 0 bh) (0%Z, 255%Z, 0%Z).

(** A JS number that may be [+Infinity]: the value of [1 / contrast]. *)
Inductive jsnum := JFin (q : Q) | JPosInf.

(** [1 / c] for [c >= 0]: [1 / 0] is [+Infinity]. *)
Definition js_inv (c : Q) : jsnum :=
  if Qeq_bool c 0 then JPosInf else JFin (1 / c).

(** [Math.min(a, b)] for a finite [a]. *)
Definition js_min (a : Q) (b : jsnum) : Q :=
  match b with JPosInf => a | JFin q => Qmin a q end.

(** [enhanceBlockContrast] *)
Definition enhanceBlockContrast (grayscale result : list Z) (width bx by_ bw bh : Z)
    (mean scale : Q) : list Z :=
  fold_left (fun result y =>
    fold_left (fun result x =>
      let idx := ((by_ + y) * width + (bx + x))%Z in
      let value := rd grayscale idx in
      wr result idx
        (to_uint8_clamp (Qclamp255 (mean + scale * (inject_Z value - mean)))))
      (zrange 0 bw) result)
    (zrange 0 bh) result.

(** Mean and scale of one block, as computed in [applyAdaptiveContrast]. *)
Definition block_params (grayscale : list Z) (width bx by_ bw bh : Z)
    (contrastLimit : Q) : Q * Q :=
  let '(sum, mn, mx) := calculateBlockStats grayscale width bx by_ bw bh in
  let mean := inject_Z sum / inject_Z (bw * bh) in
  let contrast := inject_Z (mx - mn) / 255 in
  let scale := js_min contrastLimit (js_inv contrast) in
  (mean, scale).

(** [applyAdaptiveContrast] *)
Definition applyAdaptiveContrast (grayscale : list Z) (width height blockSize : Z)
    (maxContrast : Q) (isDetection : bool) : list Z :=
  let contrastLimit := if isDetection then 3#2 else maxContrast in
  fold_left (fun result by_ =>
    fold_left (fun result bx =>
      let bw := Z.min blockSize (width - bx) in
      let bh := Z.min blockSize (height - by_) in
      let '(mean, scale) := block_params grayscale width bx by_ bw bh contrastLimit in
      enhanceBlockContrast grayscale result width bx by_ bw bh mean scale)
      (zsteps 0 width blockSize) result)
    (zsteps 0 height blockSize) grayscale.

(** [original || 1]: a zero average (the only falsy value it can take)
    is replaced by 1. *)
Definition js_or_one (q : Q) : Q := if Qeq_bool q 0 then 1 else q.

(** The divisor used for the pixel starting at [data[i]]. *)
Definition enhanced_divisor (r g b : Z) : Q :=
  js_or_one (inject_Z (r + g + b) / 3).

(** The value stored back for one channel [c] with ratio [ratio]. *)
Definition scaled_channel (c : Z) (ratio : Q) : Z :=
  to_uint8_clamp (Qclamp255 (inject_Z c * ratio)).

(** [applyEnhancedGrayscale]: mutates [data] in place. *)
Definition applyEnhancedGrayscale (data grayscale : list Z) : list Z :=
  let n := Z.of_nat (length data) in
  fold_left (fun data k =>
    let i := (4 * k)%Z in
    let enhanced := rd grayscale k in
    let ratio := inject_Z enhanced / enhanced_divisor (rd data i) (rd data (i + 1)) (rd data (i + 2)) in
    let data := wr data i (scaled_channel (rd data i) ratio) in
    let data := wr data (i + 1) (scaled_channel (rd data (i + 1)) ratio) in
    wr data (i + 2) (scaled_channel (rd data (i + 2)) ratio))
    (zrange 0 ((n + 3) / 4)) data.

End Filters.

(* ------------------------------------------------------------------ *)
(** ** [applyImageFilters] and [preprocessImage] (image-processing.ts) *)

Module Preprocess.
Import Px Filters.
Open Scope Z_scope.

Inductive Format := ImageJpeg | ImagePng | ImageWebp.
Inductive Task := Classification | Detection.
Inductive Provider := HuggingFace.

(** [ProcessingOptions]: [None] is a key the caller left out. *)
Record ProcessingOptions := {
  opt_maxSize : option Z; opt_minSize : option Z; opt_quality : option Q;
  opt_format : option Format; opt_task : option Task;
  opt_enhanceContrast : option bool; opt_denoise : option bool;
  opt_sharpen : option bool; opt_provider : option Provider }.

Definition no_options : ProcessingOptions :=
  {| opt_maxSize := None; opt_minSize := None; opt_quality := None;
     opt_format := None; opt_task := None; opt_enhanceContrast := None;
     opt_denoise := None; opt_sharpen := None; opt_provider := None |}.

(** [Required<ProcessingOptions>] after [{ ...DEFAULT_OPTIONS, ...options }];
    [provider] has no default. *)
Record Options := {
  maxSize : Z; minSize : Z; quality : Q; format : Format; task : Task;
  enhanceContrast : bool; denoise : bool; sharpen : bool;
  provider : option Provider }.

(** [DEFAULT_OPTIONS] merged under the caller's options. *)
Definition merge_defaults (o : ProcessingOptions) : Options :=
  {| maxSize := default 1024 (opt_maxSize o);
     minSize := default 224 (opt_minSize o);
     quality := default (9#10)%Q (opt_quality o);
     format := default ImageJpeg (opt_format o);
     task := default Classification (opt_task o);
     enhanceContrast := default true (opt_enhanceContrast o);
     denoise := default true (opt_denoise o);
     sharpen := default true (opt_sharpen o);
     provider := opt_provider o |}.

Definition is_detection (o : Options) : bool :=
  match task o with Detection => true | Classification => false end.

Definition is_huggingface (o : Options) : bool :=
  match provider o with Some HuggingFace => true | None => false end.

(** [applyImageFilters]: the canvas pixels are [ctx.getImageData(...).data]
    (RGBA); the function returns the pixels the canvas holds afterwards. *)
Definition applyImageFilters (data : list Z) (width height : Z) (options : Options)
    : list Z :=
  if is_detection options then
    data
  else
    let g0 := convertToGrayscale data in
    let g1 := if denoise options then applyMedianFilter g0 width height 1 false else g0 in
    let g2 := if sharpen options then applySharpeningFilter g1 width height false else g1 in
    let g3 := if enhanceContrast options
              then applyAdaptiveContrast g2 width height 8 2%Q false else g2 in
    applyEnhancedGrayscale data g3.

(** The browser side of [preprocessImage]: whether [getContext('2d')]
    returns a context, what [drawImage] rasterises at a given size, and
    whether the re-encoded image loads. *)
Record Env := {
  ctx_available : bool;
  drawImage : Z -> Z -> list Z;
  processed_loads : bool }.

Record Image := { naturalWidth : Z; naturalHeight : Z }.

(** Steps of [preprocessImage] that act on the canvas, in order. *)
Inductive Event :=
  | ESetCanvasSize (w h : Z)
  | EDraw (w h : Z)
  | EFilter (pixels_before pixels_after : list Z)
  | EEncode (fmt : Format) (q : Q).

(** The errors [preprocessImage] rejects with, each wrapped by the
    [catch] or [onerror] handler into the rejection message. *)
Inductive PError :=
  | ErrNoContext            (* "Could not get canvas context" *)
  | ErrMinDimensions (m : Z) (* "Image dimensions must be at least mxm pixels" *)
  | ErrLoad.                (* "Failed to load processed image: ..." *)

Record ProcessedImage := {
  out_width : Z; out_height : Z; out_pixels : list Z;
  out_format : Format; out_quality : Q }.

(** The size computation of [preprocessImage] (lines 344-356). *)
Definition target_max (o : Options) : Z :=
  if is_huggingface o then 800
  else if is_detection o then Z.min 640 (maxSize o) else maxSize o.

(** [Math.round((a * m) / b)] for integers with [b > 0]. *)
Definition round_div (a m b : Z) : Z := math_round (inject_Z (a * m) / inject_Z b).

Definition scale_dims (width height mx : Z) : Z * Z :=
  if (mx <? width) || (mx <? height) then
    if height <? width then (mx, round_div height mx width)
    else (round_div width mx height, mx)
  else (width, height).

(** [preprocessImage image options]: the promise's outcome, with the log
    of canvas steps taken before it settles. *)
Definition preprocessImage (env : Env) (image : Image) (options : ProcessingOptions)
    : list Event * (PError + ProcessedImage) :=
  let o := merge_defaults options in
  let isDetection := is_detection o in
  let isHuggingFace := is_huggingface o in
  if negb (ctx_available env) then ([], inl ErrNoContext)
  else
    let width := naturalWidth image in
    let height := naturalHeight image in
    if (width <? minSize o) || (height <? minSize o) then
      ([], inl (ErrMinDimensions (minSize o)))
    else
      let mx := target_max o in
      let '(width, height) := scale_dims width height mx in
      let drawn := drawImage env width height in
      let filtered := applyImageFilters drawn width height o in
      let q := if isHuggingFace then 1%Q else if isDetection then 1%Q else quality o in
      let fmt := if isHuggingFace then ImagePng else format o in
      let log := [ESetCanvasSize width height; EDraw width height;
                  EFilter drawn filtered; EEncode fmt q] in
      if processed_loads env then
        (log, inr {| out_width := width; out_height := height;
                     out_pixels := filtered; out_format := fmt; out_quality := q |})
      else (log, inl ErrLoad).

Definition is_resize_or_filter (e : Event) : bool :=
  match e with
  | ESetCanvasSize _ _ | EDraw _ _ | EFilter _ _ => true
  | EEncode _ _ => false
  end.

End Preprocess.

(* ------------------------------------------------------------------ *)
(** ** The in-flight flag of ml-models.ts *)

Module Inference.

Inductive CallKind := Detect | Classify.

(** Module state: [isModelLoading], and the calls whose promise has not
    settled yet. *)
Record World := { isModelLoading : bool; pending : list CallKind }.

Definition init : World := {| isModelLoading := false; pending := [] |}.

Definition busy_message : string := "Another recognition is in progress. Please wait.".

(** What a call has done when control returns to the caller. *)
Inductive Outcome := Rejected (msg : string) | Pending.

(** Calling [detectObjects] / [classifyImage]: the synchronous prefix of
    the async body, up to its first [await]. [detectObjects] tests the flag
    before its [try], so the busy [throw] skips the [finally]; otherwise it
    sets the flag and always reaches an [await] (the preprocessing).
    [classifyImage] never reads or writes the flag. *)
Definition call (k : CallKind) (w : World) : Outcome * World :=
  match k with
  | Detect =>
      if isModelLoading w then (Rejected busy_message, w)
      else (Pending, {| isModelLoading := true; pending := Detect :: pending w |})
  | Classify =>
      (Pending, {| isModelLoading := isModelLoading w; pending := Classify :: pending w |})
  end.

(** Settling the pending call at position [i] (resolve or reject): for
    [detectObjects] its [finally] clears the flag. *)
Definition settle (i : nat) (w : World) : option World :=
  match pending w !! i with
  | None => None
  | Some k =>
      let rest := take i (pending w) ++ drop (S i) (pending w) in
      Some {| isModelLoading := match k with Detect => false | Classify => isModelLoading w end;
              pending := rest |}
  end.

(** Worlds reachable from module load by any interleaving of calls and
    settlements. *)
Inductive reachable : World -> Prop :=
  | reach_init : reachable init
  | reach_call k w : reachable w -> reachable (snd (call k w))
  | reach_settle i w w' : reachable w -> settle i w = Some w' -> reachable w'.

Definition detect_count (w : World) : nat :=
  length (List.filter (fun k => match k with Detect => true | Classify => false end) (pending w)).

End Inference.

(* ------------------------------------------------------------------ *)
(** ** Label placement of [drawRecognitionResult] (page.tsx) *)

Module Label.
Import Coords Px.
Open Scope Q_scope.

(** [calculateLabelPosition] *)
Definition calculateLabelPosition (coords : Coordinates) (labelWidth labelHeight : Q)
    (canvas : CanvasDimensions) : Q * Q :=
  let padding := 8 in
  let labelX := x coords in
  let labelY := if Qlt_bool (labelHeight + padding) (y coords)
                then y coords - labelHeight - padding
                else y coords + height coords + padding in
  (Qmax 0 (Qmin labelX (cwidth canvas - labelWidth)),
   Qmax labelHeight (Qmin labelY (cheight canvas - padding))).

(** The background rectangle [drawLabel] fills,
    [roundRect(x, y - height, width, height)], with
    [x = Math.max(0, position.x)] and [y = Math.max(0, position.y)]
    (a rational position is always finite). *)
Definition drawLabel_rect (position : Q * Q) (w h : Q) : Coordinates :=
  let x0 := Qmax 0 (fst position) in
  let y0 := Qmax 0 (snd position) in
  {| x := x0; y := y0 - h; width := w; height := h |}.

(** The label rectangle [drawRecognitionResult] draws for one recognition,
    for a label text of measured width [textWidth]: the label is
    [textWidth + 2 * padding] wide and 28 high. *)
Definition recognition_label_rect (recognition : Recognition) (modelId : string)
    (canvasDimensions : CanvasDimensions) (scaling : ScalingParameters)
    (textWidth : Q) : Coordinates :=
  let coords := convertCoordinates recognition modelId canvasDimensions scaling in
  let padding := 8 in
  let labelWidth := textWidth + padding * 2 in
  let labelHeight := 28 in
  drawLabel_rect (calculateLabelPosition coords labelWidth labelHeight canvasDimensions)
    labelWidth labelHeight.

End Label.

(* ------------------------------------------------------------------ *)
(** ** The input canvas of [processImage] (page.tsx) *)

Module Letterbox.
Import Coords.
Open Scope Q_scope.

(** A loaded [HTMLImageElement]: its [width]/[height] and its intrinsic
    size. *)
Record HtmlImage := {
  img_width : Q; img_height : Q; img_naturalWidth : Q; img_naturalHeight : Q }.

(** What [prepareInputCanvas] returns, with the destination rectangle of
    its [drawImage] call. *)
Record InputCanvas := {
  canvas_width : Q; canvas_height : Q;
  in_offsetX : Q; in_offsetY : Q; in_scale : Q;
  drawn : Coordinates }.

Definition standard_width (modelId : string) : Q :=
  if String.eqb modelId "coco-ssd" then 640 else 800.

Definition standard_height (modelId : string) : Q :=
  if String.eqb modelId "coco-ssd" then 480 else 600.

(** [prepareInputCanvas]; [None] is the thrown
    "Could not get input canvas context". *)
Definition prepareInputCanvas (ctx_available : bool) (img : HtmlImage) (modelId : string)
    : option InputCanvas :=
  let standardWidth := standard_width modelId in
  let standardHeight := standard_height modelId in
  if negb ctx_available then None
  else
    let scale := Qmin (standardWidth / img_width img) (standardHeight / img_height img) in
    let scaledWidth := img_width img * scale in
    let scaledHeight := img_height img * scale in
    let offX := (standardWidth - scaledWidth) / 2 in
    let offY := (standardHeight - scaledHeight) / 2 in
    Some {| canvas_width := standardWidth; canvas_height := standardHeight;
            in_offsetX := offX; in_offsetY := offY; in_scale := scale;
            drawn := {| x := offX; y := offY; width := scaledWidth; height := scaledHeight |} |}.

(** The output canvas of [prepareOutputCanvas] has the intrinsic size;
    [processImage] passes it as [canvasDimensions]. *)
Definition output_dims (img : HtmlImage) : CanvasDimensions :=
  {| cwidth := img_naturalWidth img; cheight := img_naturalHeight img |}.

(** The [scaling] object [processImage] builds for each recognition. *)
Definition processImage_scaling (img : HtmlImage) (ic : InputCanvas) : ScalingParameters :=
  {| scaledWidth := img_width img * in_scale ic; scaledHeight := img_height img * in_scale ic;
     offsetX := in_offsetX ic; offsetY := in_offsetY ic |}.

(** Where the [drawImage] call of [prepareInputCanvas] puts a box given in
    the image's intrinsic pixels: the source rectangle
    [[0, naturalWidth] x [0, naturalHeight]] is mapped onto [drawn]. *)
Definition place_box (img : HtmlImage) (ic : InputCanvas) (b : Coordinates) : Recognition :=
  let sx := width (drawn ic) / img_naturalWidth img in
  let sy := height (drawn ic) / img_naturalHeight img in
  {| bbox0 := x (drawn ic) + x b * sx; bbox1 := y (drawn ic) + y b * sy;
     bbox2 := width b * sx; bbox3 := height b * sy |}.

End Letterbox.

(* ------------------------------------------------------------------ *)
(** ** [detectObjects] and [classifyImage] (ml-models.ts) *)

Module Detect.
Import Coords Px.
Open Scope Q_scope.

(** A thrown value: an [Error] with its message, or anything else. *)
Inductive Thrown := ThrownError (message : string) | ThrownOther.

(** [error instanceof Error ? error.message : 'Unknown error'] *)
Definition error_message (e : Thrown) : string :=
  match e with ThrownError m => m | ThrownOther => "Unknown error" end.

(** [!hfToken] for an optional string. *)
Definition token_missing (hfToken : option string) : bool :=
  match hfToken with None => true | Some t => String.eqb t "" end.

(** [models.classification] and [models.recognition] ids. *)
Definition classification_ids : list string := ["mobilenet"%string; "microsoft/resnet-50"%string].
Definition recognition_ids : list string := ["coco-ssd"%string; "facebook/detr-resnet-50"%string].

(** An element of the [hf.objectDetection] response. *)
Record HfDetection := {
  label : string; score : Q;
  box_xmin : Q; box_ymin : Q; box_xmax : Q; box_ymax : Q }.

(** A recognition as [detectObjects] resolves with it. *)
Record DetectedObject := { obj_class : string; obj_score : Q; obj_bbox : list Q }.

(** [score > 0.35] *)
Definition confident (s : Q) : bool := Qlt_bool (35#100) s.

(** The COCO-SSD branch: [results.filter(result => result.score > 0.35)]. *)
Definition coco_results (results : list DetectedObject) : list DetectedObject :=
  List.filter (fun r => confident (obj_score r)) results.

(** The DETR branch: filter on the score, then
    [bbox: [xmin, ymin, xmax - xmin, ymax - ymin]]. *)
Definition detr_object (d : HfDetection) : DetectedObject :=
  {| obj_class := label d; obj_score := score d;
     obj_bbox := [box_xmin d; box_ymin d; box_xmax d - box_xmin d; box_ymax d - box_ymin d] |}.

Definition detr_results (response : list HfDetection) : list DetectedObject :=
  map detr_object (List.filter (fun d => confident (score d)) response).

(** What the awaited steps of [detectObjects] yield: waiting for the image,
    the local [preprocessImage], loading and running COCO-SSD, and the
    Hugging Face request. *)
Record DetectEnv := {
  image_wait : option Thrown;
  preprocess_result : option Thrown;
  coco_detect : Thrown + list DetectedObject;
  hf_detect : Thrown + list HfDetection }.

(** The [try] block of [detectObjects]. *)
Definition detect_body (modelId : string) (hfToken : option string) (env : DetectEnv)
    : Thrown + list DetectedObject :=
  match image_wait env with
  | Some e => inl e
  | None =>
    match preprocess_result env with
    | Some e => inl e
    | None =>
      if String.eqb modelId "coco-ssd" then
        match coco_detect env with
        | inl e => inl e
        | inr results => inr (coco_results results)
        end
      else if String.eqb modelId "facebook/detr-resnet-50" then
        if token_missing hfToken then inl (ThrownError "Hugging Face token is required")
        else
          match hf_detect env with
          | inl e => inl e
          | inr response => inr (detr_results response)
          end
      else inl (ThrownError (String.append "Unsupported model: " modelId))
    end
  end.

(** [detectObjects]: the settled promise (rejection message or results)
    and the value of [isModelLoading] afterwards. The busy check throws
    before the [try]; otherwise the [catch] rewraps the error and the
    [finally] clears the flag. *)
Definition detectObjects (isModelLoading : bool) (modelId : string)
    (hfToken : option string) (env : DetectEnv) : (string + list DetectedObject) * bool :=
  if isModelLoading then (inl Inference.busy_message, isModelLoading)
  else
    match detect_body modelId hfToken env with
    | inl e => (inl (String.append "Object recognition failed: "
                      (String.append (error_message e)
                         ". Please try again or choose a different model.")), false)
    | inr results => (inr results, false)
    end.

(** [const [x, y, width, height] = recognition.bbox] as read by
    [convertCoordinates]; both branches produce four numbers. *)
Definition to_recognition (o : DetectedObject) : Recognition :=
  {| bbox0 := nth 0 (obj_bbox o) 0; bbox1 := nth 1 (obj_bbox o) 0;
     bbox2 := nth 2 (obj_bbox o) 0; bbox3 := nth 3 (obj_bbox o) 0 |}.

(** What the awaited steps of [classifyImage] yield, as
    [(className, probability)] pairs. *)
Record ClassifyEnv := {
  mobilenet_classify : Thrown + list (string * Q);
  hf_classify : Thrown + list (string * Q) }.

(** [classifyImage] *)
Definition classifyImage (modelId : string) (hfToken : option string) (env : ClassifyEnv)
    : string + list (string * Q) :=
  let body :=
    if String.eqb modelId "mobilenet" then mobilenet_classify env
    else if String.eqb modelId "microsoft/resnet-50" then
      if token_missing hfToken then inl (ThrownError "Hugging Face token is required")
      else hf_classify env
    else inl (ThrownError (String.append "Unsupported model: " modelId)) in
  match body with
  | inl e => inl (String.append "Classification failed: " (error_message e))
  | inr r => inr r
  end.

(** The size the local [preprocessImage] of ml-models.ts draws at;
    [None] is the rejection "Could not get canvas context". *)
Definition MAX_SIZE : Q := 1024.

Definition ml_preprocess_size (ctx_available : bool) (naturalWidth naturalHeight : Q)
    : option (Q * Q) :=
  if negb ctx_available then None
  else
    let w := naturalWidth in
    let h := naturalHeight in
    Some (if Qlt_bool MAX_SIZE w || Qlt_bool MAX_SIZE h then
            if Qlt_bool h w then (MAX_SIZE, h * MAX_SIZE / w)
            else (w * MAX_SIZE / h, MAX_SIZE)
          else (w, h)).

End Detect.

(* ------------------------------------------------------------------ *)
(** ** [validateImageFile] and [createResultCanvas] (image-processing.ts) *)

Module Upload.
Import Px.
Open Scope Q_scope.

Record File := { file_size : Z; file_type : string }.

(** What the [FileReader] and the [Image] load deliver: the data URL (or
    a reader error) and the natural size (or a load error). *)
Record ReaderEnv := { read_result : option string; loaded_size : option (Z * Z) }.

(** The rejections of [validateImageFile], in the order of the source. *)
Inductive ValidationError :=
  | FileTooLarge (maxSizeMB : Q)  (* "File is too large. Maximum size is ...MB" *)
  | InvalidType                   (* "Invalid file type. Please upload an image file" *)
  | TooSmall                      (* "Image dimensions must be at least 224x224 pixels" *)
  | LoadFailed                    (* "Failed to load and validate image" *)
  | ReadError.                    (* "Error reading image file" *)

(** [validateImageFile file maxSizeMB]: rejection or the data URL. *)
Definition validateImageFile (file : File) (maxSizeMB : Q) (env : ReaderEnv)
    : ValidationError + string :=
  if Qlt_bool (maxSizeMB * 1024 * 1024) (inject_Z (file_size file)) then inl (FileTooLarge maxSizeMB)
  else if negb (prefixb "image/" (file_type file)) then inl InvalidType
  else
    match read_result env with
    | None => inl ReadError
    | Some url =>
      match loaded_size env with
      | None => inl LoadFailed
      | Some (naturalWidth, naturalHeight) =>
        if (naturalWidth <? 224)%Z || (naturalHeight <? 224)%Z then inl TooSmall
        else inr url
      end
    end.

(** [createResultCanvas image maxWidth maxHeight]: the canvas size, for an
    image of integral size [width x height]; [None] is the thrown
    "Could not get canvas context". *)
Definition createResultCanvas (ctx_available : bool) (w h : Z) (maxWidth maxHeight : Z)
    : option (Z * Z) :=
  if negb ctx_available then None
  else
    let aspectRatio := inject_Z w / inject_Z h in
    let '(width, height) :=
      if (maxWidth <? w)%Z then (maxWidth, math_round (inject_Z maxWidth / aspectRatio))
      else (w, h) in
    Some (if (maxHeight <? height)%Z then (math_round (inject_Z maxHeight * aspectRatio), maxHeight)
          else (width, height)).

End Upload.

(* ================================================================== *)
(** * Theorems *)

(* ------------------------------------------------------------------ *)
(** ** Coordinate mapping *)

Module CoordsFacts.
Import Coords.
Open Scope Q_scope.

(** Conjunctions of hypotheses, without unfolding [Qle] (whose definition
    is a negation that [tauto] would explore). *)
Ltac tauto_atoms := repeat match goal with |- _ /\ _ => split end; assumption.

Lemma detr_model_is_corner_pair :
  is_corner_pair_model "facebook/detr-resnet-50" = true.
Proof. reflexivity. Qed.

Lemma coco_model_is_origin_extent : is_corner_pair_model "coco-ssd" = false.
Proof. reflexivity. Qed.

(** With [k = W / s] for positive [s] and [W]: [k > 0] and [s * k == W]. *)
Lemma scale_pos (W s : Q) : 0 < s -> 0 < W -> 0 < W / s.
Proof.
  intros Hs HW. unfold Qdiv. apply Qmult_lt_0_compat; [exact HW|].
  apply Qinv_lt_0_compat. exact Hs.
Qed.

Lemma scale_mul (W s : Q) : 0 < s -> s * (W / s) == W.
Proof.
  intros Hs. field. intros E. rewrite E in Hs. discriminate.
Qed.

Lemma nonneg_scaled (a k : Q) : 0 < k -> (0 <= a * k <-> 0 <= a).
Proof.
  intros Hk. rewrite <- (Qmult_0_l k) at 1. apply Qmult_le_r. exact Hk.
Qed.

(** [a*k <= W - b*k] iff [a + b <= s], where [k = W / s]. *)
Lemma upper_scaled (a b W s : Q) :
  0 < s -> 0 < W ->
  (a * (W / s) <= W - b * (W / s) <-> a + b <= s).
Proof.
  intros Hs HW. set (k := W / s).
  assert (Hk : 0 < k) by (apply scale_pos; assumption).
  assert (HWk : W == s * k) by (symmetry; apply scale_mul; exact Hs).
  rewrite HWk.
  assert (E1 : a * k <= s * k - b * k <-> (a + b) * k <= s * k).
  { split; intros H.
    - setoid_replace ((a + b) * k) with (a * k + b * k) using relation Qeq by ring.
      apply (Qplus_le_l _ _ (- (b * k))).
      setoid_replace (a * k + b * k + - (b * k)) with (a * k) using relation Qeq by ring.
      exact H.
    - setoid_replace ((a + b) * k) with (a * k + b * k) using relation Qeq in H by ring.
      apply (Qplus_le_l _ _ (b * k)).
      setoid_replace (s * k - b * k + b * k) with (s * k) using relation Qeq by ring.
      exact H. }
  rewrite E1. apply Qmult_le_r. exact Hk.
Qed.

Lemma upper_scaled' (a b W s : Q) :
  0 < s -> 0 < W ->
  (b * (W / s) <= W - a * (W / s) <-> a + b <= s).
Proof.
  intros Hs HW. rewrite (upper_scaled b a W s Hs HW).
  split; intros H; [rewrite Qplus_comm | rewrite Qplus_comm in H]; exact H.
Qed.

End CoordsFacts.

Import Coords CoordsFacts.

(** The input box, in the frame of the scaled image, lies inside
    [[0, scaledWidth] x [0, scaledHeight]]. *)
Definition input_inside (r : Recognition) (modelId : string) (s : ScalingParameters) : Prop :=
  if is_corner_pair_model modelId then
    (0 <= bbox0 r /\ bbox2 r <= scaledWidth s /\ 0 <= bbox1 r /\ bbox3 r <= scaledHeight s)%Q
  else
    (offsetX s <= bbox0 r /\ bbox0 r - offsetX s + bbox2 r <= scaledWidth s /\
     offsetY s <= bbox1 r /\ bbox1 r - offsetY s + bbox3 r <= scaledHeight s)%Q.

(** C2: [convertCoordinates] is exactly the reference mapping of the
    family picked by the model id (corner pairs for ids containing "detr"
    or "yolos", origin+extent otherwise); in particular with
    [scaledWidth = 640], [destWidth = 1280] (and [scaledHeight = 480],
    [destHeight = 960]) the DETR box [[100, 50, 200, 150]] maps to
    [{x: 200, y: 100, width: 200, height: 200}]. *)
Theorem convertCoordinates_reference :
  (forall r modelId canvas s,
     convertCoordinates r modelId canvas s
     = reference_mapping r modelId (cwidth canvas) (cheight canvas) s) /\
  coords_eq
    (convertCoordinates {| bbox0 := 100; bbox1 := 50; bbox2 := 200; bbox3 := 150 |}
       "facebook/detr-resnet-50" {| cwidth := 1280; cheight := 960 |}
       {| scaledWidth := 640; scaledHeight := 480; offsetX := 0; offsetY := 0 |})
    {| x := 200; y := 100; width := 200; height := 200 |}.
Proof.
  split.
  - intros r modelId canvas s. unfold convertCoordinates, reference_mapping,
      is_corner_pair_model.
    destruct (includes modelId "detr" || includes modelId "yolos"); reflexivity.
  - repeat split; reflexivity.
Qed.

(** C1 (counterexample): [convertCoordinates] does not clamp. A DETR box
    [[0, 0, 1000, 100]] on a 640x480 scaled image drawn on a 1280x960 canvas
    maps to a box 2000 pixels wide, which does not fit in the canvas. *)
Lemma convertCoordinates_no_clamp :
  ~ inside
      (convertCoordinates {| bbox0 := 0; bbox1 := 0; bbox2 := 1000; bbox3 := 100 |}
         "facebook/detr-resnet-50" {| cwidth := 1280; cheight := 960 |}
         {| scaledWidth := 640; scaledHeight := 480; offsetX := 0; offsetY := 0 |})
      1280 960.
Proof.
  unfold inside. intros (_ & H & _). vm_compute in H. apply H. reflexivity.
Qed.

(** C1 (amended): [convertCoordinates] applies no clamp; for positive
    scaling parameters the mapped box lies inside the canvas
    [[0, destWidth] x [0, destHeight]] exactly when the input box lies
    inside the scaled image [[0, scaledWidth] x [0, scaledHeight]] (after
    subtracting the offsets for the origin+extent family). *)
Theorem convertCoordinates_inside_iff (r : Recognition) (modelId : string)
    (canvas : CanvasDimensions) (s : ScalingParameters)
    (Hsw : (0 < scaledWidth s)%Q) (Hsh : (0 < scaledHeight s)%Q)
    (Hw : (0 < cwidth canvas)%Q) (Hh : (0 < cheight canvas)%Q) :
  inside (convertCoordinates r modelId canvas s) (cwidth canvas) (cheight canvas)
  <-> input_inside r modelId s.
Proof.
  pose proof (scale_pos _ _ Hsw Hw) as Hkx.
  pose proof (scale_pos _ _ Hsh Hh) as Hky.
  unfold inside, input_inside, convertCoordinates, is_corner_pair_model.
  destruct (includes modelId "detr" || includes modelId "yolos"); cbn [x y width height].
  - rewrite (nonneg_scaled _ _ Hkx), (nonneg_scaled _ _ Hky).
    rewrite (upper_scaled _ _ _ _ Hsw Hw), (upper_scaled' _ _ _ _ Hsw Hw).
    rewrite (upper_scaled _ _ _ _ Hsh Hh), (upper_scaled' _ _ _ _ Hsh Hh).
    assert (F : forall a b c : Q, a + (b - a) <= c <-> b <= c).
    { intros a b c. setoid_replace (a + (b - a)) with b using relation Qeq by ring. reflexivity. }
    rewrite !F. split.
    + intros (H1 & H2 & H3 & H4 & _). tauto_atoms.
    + intros (H1 & H2 & H3 & H4). tauto_atoms.
  - rewrite (nonneg_scaled _ _ Hkx), (nonneg_scaled _ _ Hky).
    rewrite (upper_scaled _ _ _ _ Hsw Hw), (upper_scaled' _ _ _ _ Hsw Hw).
    rewrite (upper_scaled _ _ _ _ Hsh Hh), (upper_scaled' _ _ _ _ Hsh Hh).
    assert (G : forall a b : Q, 0 <= a - b <-> b <= a).
    { intros a b. rewrite (Qle_minus_iff b a). reflexivity. }
    rewrite !G.
    split.
    + intros (H1 & H2 & H3 & H4 & _). tauto_atoms.
    + intros (H1 & H2 & H3 & H4). tauto_atoms.
Qed.

(** Witness for [convertCoordinates_inside_iff]: the C2 example box. *)
Lemma convertCoordinates_inside_iff_witness :
  inside
    (convertCoordinates {| bbox0 := 100; bbox1 := 50; bbox2 := 200; bbox3 := 150 |}
       "facebook/detr-resnet-50" {| cwidth := 1280; cheight := 960 |}
       {| scaledWidth := 640; scaledHeight := 480; offsetX := 0; offsetY := 0 |})
    1280 960.
Proof.
  apply (convertCoordinates_inside_iff _ _ {| cwidth := 1280; cheight := 960 |} _);
    try reflexivity.
  vm_compute. repeat split; discriminate.
Defined.

(* ------------------------------------------------------------------ *)
(** ** [preprocessImage] *)

Module PreprocessFacts.
Import Px Filters Preprocess.

(** [Math.round((a * m) / b)] is the nearest integer to [a * m / b]:
    [r - 1/2 <= a*m/b < r + 1/2]. *)
Lemma round_div_spec (a m b : Z) :
  0 < b ->
  2 * b * round_div a m b - b <= 2 * (a * m) < 2 * b * round_div a m b + b.
Proof.
  intros Hb. destruct b as [|pb|pb]; try lia.
  unfold round_div, math_round.
  rewrite (Qfloor_comp _ ((2 * (a * m) + Z.pos pb) # (2 * pb))).
  2:{ unfold Qeq, Qdiv, Qmult, Qplus, Qinv, inject_Z. simpl. lia. }
  unfold Qfloor.
  pose proof (Z.div_mod (2 * (a * m) + Z.pos pb) (Z.pos (2 * pb)) ltac:(lia)) as Hdm.
  pose proof (Z.mod_pos_bound (2 * (a * m) + Z.pos pb) (Z.pos (2 * pb)) ltac:(lia)) as Hmb.
  rewrite Pos2Z.inj_mul in *. simpl (Z.pos 2) in *. lia.
Qed.

Lemma merge_task_detection (options : ProcessingOptions) :
  opt_task options = Some Detection -> is_detection (merge_defaults options) = true.
Proof. intros H. unfold is_detection, merge_defaults. simpl. rewrite H. reflexivity. Qed.

(** A small browser environment used by the examples: a 2D context is
    available, the rasterised canvas is blank, and the re-encoded image
    loads. *)
Definition env_demo : Env :=
  {| ctx_available := true;
     drawImage := fun w h => repeat 0 (Z.to_nat (4 * w * h));
     processed_loads := true |}.

Definition small_options (t : Task) : ProcessingOptions :=
  {| opt_maxSize := Some 2; opt_minSize := Some 1; opt_quality := None;
     opt_format := None; opt_task := Some t; opt_enhanceContrast := None;
     opt_denoise := None; opt_sharpen := None; opt_provider := None |}.

End PreprocessFacts.

Import Px Filters Preprocess PreprocessFacts.

(** C3: the minimum-size check. A dimension below [minSize] (default 224)
    is the only way [preprocessImage] rejects with the minimum-dimension
    error, and such a rejection happens before any canvas resize, draw or
    filter (the step log is empty); an image with both dimensions
    [>= minSize] never gets that error. When the 2D context is available
    (always, for a fresh canvas) a dimension below [minSize] does produce
    that error. *)
Theorem preprocessImage_min_size (env : Env) (image : Image) (options : ProcessingOptions) :
  let o := merge_defaults options in
  (forall m, snd (preprocessImage env image options) = inl (ErrMinDimensions m) ->
     m = minSize o /\
     (naturalWidth image < minSize o \/ naturalHeight image < minSize o) /\
     Forall (fun e => is_resize_or_filter e = false) (fst (preprocessImage env image options))) /\
  (minSize o <= naturalWidth image -> minSize o <= naturalHeight image ->
     forall m, snd (preprocessImage env image options) <> inl (ErrMinDimensions m)) /\
  (ctx_available env = true ->
     naturalWidth image < minSize o \/ naturalHeight image < minSize o ->
     snd (preprocessImage env image options) = inl (ErrMinDimensions (minSize o))).
Proof.
  cbv zeta. unfold preprocessImage.
  destruct (ctx_available env) eqn:Hctx; cbn -[scale_dims applyImageFilters merge_defaults].
  - destruct (naturalWidth image <? minSize (merge_defaults options)) eqn:Hw;
    destruct (naturalHeight image <? minSize (merge_defaults options)) eqn:Hh;
    cbn -[scale_dims applyImageFilters merge_defaults];
    rewrite ?Z.ltb_lt, ?Z.ltb_ge in *.
    1-3: split; [intros m Hm; injection Hm as <-; repeat split; [lia | constructor] |];
         split; [intros H1 H2; lia | intros _ _; reflexivity].
    destruct (scale_dims _ _ _) as [w' h'].
    split; [| split; [| intros _ Hsmall; lia]].
    + intros m. destruct (processed_loads env); discriminate.
    + intros _ _ m. destruct (processed_loads env); discriminate.
  - repeat split; try discriminate.
Qed.

(** Witness for [preprocessImage_min_size]: a 100x300 image with the
    default [minSize] of 224 is rejected with the minimum-dimension error. *)
Lemma preprocessImage_min_size_witness :
  snd (preprocessImage env_demo {| naturalWidth := 100; naturalHeight := 300 |} no_options)
  = inl (ErrMinDimensions 224).
Proof.
  pose proof (preprocessImage_min_size env_demo
                {| naturalWidth := 100; naturalHeight := 300 |} no_options) as H.
  simpl in H. destruct H as (_ & _ & H3).
  apply H3; [reflexivity | left; reflexivity].
Defined.

Lemma scale_dims_spec (w h T : Z) :
  0 < w -> 0 < h ->
  (w <= T -> h <= T -> scale_dims w h T = (w, h)) /\
  (T < w \/ T < h ->
     (h < w -> fst (scale_dims w h T) = T /\
        2 * w * snd (scale_dims w h T) - w <= 2 * (h * T) < 2 * w * snd (scale_dims w h T) + w) /\
     (w <= h -> snd (scale_dims w h T) = T /\
        2 * h * fst (scale_dims w h T) - h <= 2 * (w * T) < 2 * h * fst (scale_dims w h T) + h)).
Proof.
  intros Hw Hh. unfold scale_dims. split.
  - intros H1 H2. replace ((T <? w) || (T <? h)) with false; [reflexivity|].
    symmetry. apply orb_false_iff. split; apply Z.ltb_ge; lia.
  - intros Hbig. replace ((T <? w) || (T <? h)) with true
      by (symmetry; apply orb_true_iff; rewrite !Z.ltb_lt; exact Hbig).
    split; intros Hcmp.
    + replace (h <? w) with true by (symmetry; apply Z.ltb_lt; lia). simpl.
      split; [reflexivity | apply round_div_spec; exact Hw].
    + replace (h <? w) with false by (symmetry; apply Z.ltb_ge; lia). simpl.
      split; [reflexivity | apply round_div_spec; exact Hh].
Qed.

(** The successful outcome of [preprocessImage]: its size is [scale_dims]
    of the natural size at [target_max]. *)
Lemma preprocessImage_success_dims (env : Env) (image : Image)
    (options : ProcessingOptions) (p : ProcessedImage) :
  snd (preprocessImage env image options) = inr p ->
  (out_width p, out_height p)
  = scale_dims (naturalWidth image) (naturalHeight image) (target_max (merge_defaults options)).
Proof.
  unfold preprocessImage.
  destruct (ctx_available env); cbn -[scale_dims applyImageFilters merge_defaults target_max];
    [| discriminate].
  destruct ((naturalWidth image <? _) || (naturalHeight image <? _));
    cbn -[scale_dims applyImageFilters merge_defaults target_max]; [discriminate |].
  destruct (scale_dims _ _ _) as [w' h'] eqn:E.
  destruct (processed_loads env); [| discriminate].
  intros Hp. injection Hp as <-. reflexivity.
Qed.

(** C5: downscale-only resizing against the effective target
    [T] = 800 for the Hugging Face provider, [min(640, maxSize)] for
    detection, [maxSize] otherwise: when both natural dimensions are
    [<= T] the output has exactly the natural size; otherwise the longer
    side becomes [T] and the other side is the nearest integer to its
    proportional value [other * T / longer]. *)
Theorem preprocessImage_scaling (env : Env) (image : Image)
    (options : ProcessingOptions) (p : ProcessedImage) :
  snd (preprocessImage env image options) = inr p ->
  0 < naturalWidth image -> 0 < naturalHeight image ->
  let o := merge_defaults options in
  let T := target_max o in
  let w := naturalWidth image in
  let h := naturalHeight image in
  T = (if is_huggingface o then 800
       else if is_detection o then Z.min 640 (maxSize o) else maxSize o) /\
  (w <= T -> h <= T -> out_width p = w /\ out_height p = h) /\
  (T < w \/ T < h ->
     (h < w -> out_width p = T /\
        2 * w * out_height p - w <= 2 * (h * T) < 2 * w * out_height p + w) /\
     (w <= h -> out_height p = T /\
        2 * h * out_width p - h <= 2 * (w * T) < 2 * h * out_width p + h)).
Proof.
  intros Hp Hw Hh. cbv zeta.
  pose proof (preprocessImage_success_dims env image options p Hp) as Hd.
  pose proof (scale_dims_spec (naturalWidth image) (naturalHeight image)
                (target_max (merge_defaults options)) Hw Hh) as [Hsmall Hbig].
  rewrite <- Hd in Hsmall, Hbig. simpl in Hbig.
  split; [reflexivity | split].
  - intros H1 H2. specialize (Hsmall H1 H2). injection Hsmall as -> ->. split; reflexivity.
  - exact Hbig.
Qed.

(** Witness for [preprocessImage_scaling]: a 4x2 image with [maxSize = 2]
    and [minSize = 1] comes out 2x1. *)
Lemma preprocessImage_scaling_witness :
  snd (preprocessImage env_demo {| naturalWidth := 4; naturalHeight := 2 |}
         (small_options Classification))
  = inr {| out_width := 2; out_height := 1; out_pixels := [0; 0; 0; 0; 0; 0; 0; 0];
           out_format := ImageJpeg; out_quality := 9#10 |} /\
  out_width {| out_width := 2; out_height := 1; out_pixels := [0; 0; 0; 0; 0; 0; 0; 0];
               out_format := ImageJpeg; out_quality := 9#10 |} = 2.
Proof.
  assert (Hp : snd (preprocessImage env_demo {| naturalWidth := 4; naturalHeight := 2 |}
                      (small_options Classification))
               = inr {| out_width := 2; out_height := 1; out_pixels := [0; 0; 0; 0; 0; 0; 0; 0];
                        out_format := ImageJpeg; out_quality := 9#10 |}) by (vm_compute; reflexivity).
  split; [exact Hp |].
  destruct (preprocessImage_scaling _ _ _ _ Hp) as (_ & _ & Hbig);
    [reflexivity | reflexivity |].
  simpl in Hbig. apply (proj1 (proj1 (Hbig (or_introl eq_refl)) eq_refl)).
Defined.

(** The re-encoding step of [preprocessImage], read off its log. *)
Lemma preprocessImage_encode_step (env : Env) (image : Image)
    (options : ProcessingOptions) (fmt : Format) (q : Q) :
  In (EEncode fmt q) (fst (preprocessImage env image options)) ->
  let o := merge_defaults options in
  q = (if is_huggingface o then 1%Q else if is_detection o then 1%Q else quality o) /\
  fmt = (if is_huggingface o then ImagePng else format o).
Proof.
  unfold preprocessImage.
  destruct (ctx_available env); cbn -[scale_dims applyImageFilters merge_defaults target_max];
    [| intros []].
  destruct ((naturalWidth image <? _) || (naturalHeight image <? _));
    cbn -[scale_dims applyImageFilters merge_defaults target_max]; [intros [] |].
  destruct (scale_dims _ _ _) as [w' h'].
  intros Hin.
  assert (Hlog : In (EEncode fmt q)
     [ESetCanvasSize w' h'; EDraw w' h';
      EFilter (drawImage env w' h') (applyImageFilters (drawImage env w' h') w' h' (merge_defaults options));
      EEncode (if is_huggingface (merge_defaults options) then ImagePng else format (merge_defaults options))
        (if is_huggingface (merge_defaults options) then 1%Q
         else if is_detection (merge_defaults options) then 1%Q else quality (merge_defaults options))])
    by (destruct (processed_loads env); exact Hin).
  simpl in Hlog.
  destruct Hlog as [E | [E | [E | [E | []]]]]; try discriminate.
  injection E as <- <-. split; reflexivity.
Qed.

(** C6 (counterexample): detection without the Hugging Face provider
    re-encodes in the configured format (default JPEG), not PNG. *)
Lemma preprocessImage_detection_not_png :
  ~ (forall env image options fmt q,
       In (EEncode fmt q) (fst (preprocessImage env image options)) ->
       is_huggingface (merge_defaults options) || is_detection (merge_defaults options) = true ->
       fmt = ImagePng).
Proof.
  intros H.
  assert (Hin : In (EEncode ImageJpeg 1%Q)
      (fst (preprocessImage env_demo {| naturalWidth := 2; naturalHeight := 2 |}
              (small_options Detection))))
    by (vm_compute; tauto).
  specialize (H _ _ _ _ _ Hin eq_refl). discriminate H.
Qed.

(** C6 (amended): the re-encoding uses quality 1.0 when the provider is
    Hugging Face or the task is detection, and the configured quality
    (default 0.9) otherwise; it uses PNG only for the Hugging Face provider,
    and the configured format (default JPEG) otherwise, detection
    included. *)
Theorem preprocessImage_encoding (env : Env) (image : Image)
    (options : ProcessingOptions) (fmt : Format) (q : Q) :
  In (EEncode fmt q) (fst (preprocessImage env image options)) ->
  let o := merge_defaults options in
  q = (if is_huggingface o || is_detection o then 1%Q else quality o) /\
  fmt = (if is_huggingface o then ImagePng else format o) /\
  (opt_quality options = None -> quality o = (9#10)%Q) /\
  (opt_format options = None -> format o = ImageJpeg).
Proof.
  intros Hin. cbv zeta.
  destruct (preprocessImage_encode_step env image options fmt q Hin) as [Hq Hf].
  split; [| split; [exact Hf |]].
  - rewrite Hq. destruct (is_huggingface (merge_defaults options)); reflexivity.
  - unfold merge_defaults; simpl. split; intros ->; reflexivity.
Qed.

(** Witness for [preprocessImage_encoding]: detection on a 2x2 image
    encodes as JPEG at quality 1. *)
Lemma preprocessImage_encoding_witness :
  In (EEncode ImageJpeg 1%Q)
     (fst (preprocessImage env_demo {| naturalWidth := 2; naturalHeight := 2 |}
             (small_options Detection))) /\
  (1 = 1)%Q /\ ImageJpeg = ImageJpeg.
Proof.
  assert (Hin : In (EEncode ImageJpeg 1%Q)
      (fst (preprocessImage env_demo {| naturalWidth := 2; naturalHeight := 2 |}
              (small_options Detection))))
    by (vm_compute; tauto).
  split; [exact Hin |].
  destruct (preprocessImage_encoding _ _ _ _ _ Hin) as (Hq & Hf & _).
  split; [exact Hq | exact Hf].
Defined.

(** C4: with [task = 'detection'] no filter runs: whatever the
    [denoise]/[sharpen]/[enhanceContrast] flags, [applyImageFilters] leaves
    the canvas pixels as they are, so the pixels [preprocessImage]
    encodes are those of the resized, unfiltered drawing. *)
Theorem preprocessImage_detection_unfiltered (env : Env) (image : Image)
    (options : ProcessingOptions) :
  opt_task options = Some Detection ->
  (forall data w h, applyImageFilters data w h (merge_defaults options) = data) /\
  (forall p, snd (preprocessImage env image options) = inr p ->
     out_pixels p = drawImage env (out_width p) (out_height p)).
Proof.
  intros Ht.
  assert (Hf : forall data w h, applyImageFilters data w h (merge_defaults options) = data).
  { intros data w h. unfold applyImageFilters. rewrite (merge_task_detection _ Ht). reflexivity. }
  split; [exact Hf |].
  intros p. unfold preprocessImage.
  destruct (ctx_available env); cbn -[scale_dims applyImageFilters merge_defaults target_max];
    [| discriminate].
  destruct ((naturalWidth image <? _) || (naturalHeight image <? _));
    cbn -[scale_dims applyImageFilters merge_defaults target_max]; [discriminate |].
  destruct (scale_dims _ _ _) as [w' h'].
  destruct (processed_loads env); [| discriminate].
  intros Hp. injection Hp as <-. simpl. apply Hf.
Qed.

(** Witness for [preprocessImage_detection_unfiltered]: a nonzero pixel
    buffer goes through unchanged under detection with every filter flag
    on. *)
Lemma preprocessImage_detection_unfiltered_witness :
  applyImageFilters [10; 200; 30; 255; 90; 5; 60; 255] 2 1
    (merge_defaults (small_options Detection))
  = [10; 200; 30; 255; 90; 5; 60; 255].
Proof.
  destruct (preprocessImage_detection_unfiltered env_demo
              {| naturalWidth := 2; naturalHeight := 1 |} (small_options Detection) eq_refl)
    as [Hf _].
  apply Hf.
Defined.

(* ------------------------------------------------------------------ *)
(** ** Border invariance of the median and sharpening filters *)

Module LoopFacts.
Import Px.
Open Scope Z_scope.

Lemma in_zrange (a b k : Z) : In k (zrange a b) <-> a <= k < b.
Proof.
  unfold zrange. rewrite in_map_iff. split.
  - intros (n & <- & Hn). apply in_seq in Hn. lia.
  - intros Hk. exists (Z.to_nat (k - a)). split; [lia |].
    apply in_seq. lia.
Qed.

Lemma lookup_wr_ne (l : list Z) (i : Z) (v : Z) (n : nat) :
  i <> Z.of_nat n -> wr l i v !! n = l !! n.
Proof.
  intros Hne. unfold wr. destruct (i <? 0) eqn:E; [reflexivity |].
  apply Z.ltb_ge in E. apply list_lookup_insert_ne. lia.
Qed.

Lemma length_wr (l : list Z) (i : Z) (v : Z) : length (wr l i v) = length l.
Proof. unfold wr. destruct (i <? 0); [reflexivity | apply length_insert]. Qed.

(** A loop whose every iteration leaves cell [n] alone leaves it alone. *)
Lemma fold_preserves_cell {A} (xs : list A) (f : list Z -> A -> list Z)
    (r : list Z) (n : nat) :
  (forall a r, In a xs -> f r a !! n = r !! n) ->
  fold_left f xs r !! n = r !! n.
Proof.
  revert r. induction xs as [|a xs IH]; intros r Hstep; [reflexivity |].
  simpl. rewrite IH.
  - apply Hstep. left. reflexivity.
  - intros a' r' Hin. apply Hstep. right. exact Hin.
Qed.

(** Row-major indices of a [width]-wide image determine row and column. *)
Lemma row_major_inj (width y x row col : Z) :
  0 <= x < width -> 0 <= col < width ->
  y * width + x = row * width + col -> y = row /\ x = col.
Proof.
  intros Hx Hc E.
  assert (y = row).
  { destruct (Z.lt_trichotomy y row) as [Hlt | [Heq | Hgt]]; [| exact Heq |].
    - assert (y * width + width <= row * width) by nia. lia.
    - assert (row * width + width <= y * width) by nia. lia. }
  subst. split; [reflexivity | lia].
Qed.

(** Writes at interior pixels [[r, height - r) x [r, width - r)] never hit
    a pixel within [r] of an edge. *)
Lemma interior_write_ne (width height r y x row col : Z) :
  r <= y < height - r -> r <= x < width - r ->
  0 <= row < height -> 0 <= col < width ->
  (row < r \/ height - r <= row \/ col < r \/ width - r <= col) ->
  y * width + x <> Z.of_nat (Z.to_nat (row * width + col)).
Proof.
  intros Hy Hx Hrow Hcol Hborder E.
  assert (Hr : 0 <= r) by lia.
  rewrite Z2Nat.id in E by nia.
  destruct (row_major_inj width y x row col) as [-> ->]; [lia | lia | exact E |].
  lia.
Qed.

End LoopFacts.

Import LoopFacts.
Open Scope Z_scope.

(** C7: the median filter leaves every pixel within [filterRadius] of an
    edge ([filterRadius] is 1 in detection mode, [radius] otherwise) equal
    to its value before the filter, and the sharpening filter every pixel
    within 1 of an edge; only interior pixels may change. *)
Theorem filters_border_invariant (grayscale : list Z) (width height radius : Z)
    (isDetection : bool) (row col : Z) :
  0 <= row < height -> 0 <= col < width ->
  let filterRadius := if isDetection then 1 else radius in
  ((row < filterRadius \/ height - filterRadius <= row \/
    col < filterRadius \/ width - filterRadius <= col) ->
   applyMedianFilter grayscale width height radius isDetection !! Z.to_nat (row * width + col)
   = grayscale !! Z.to_nat (row * width + col)) /\
  ((row < 1 \/ height - 1 <= row \/ col < 1 \/ width - 1 <= col) ->
   applySharpeningFilter grayscale width height isDetection !! Z.to_nat (row * width + col)
   = grayscale !! Z.to_nat (row * width + col)).
Proof.
  intros Hrow Hcol. cbv zeta. split; intros Hborder.
  - unfold applyMedianFilter.
    apply fold_preserves_cell. intros y r Hy. apply in_zrange in Hy.
    apply fold_preserves_cell. intros x r' Hx. apply in_zrange in Hx.
    cbv zeta. apply lookup_wr_ne.
    apply (interior_write_ne width height (if isDetection then 1 else radius)); assumption.
  - unfold applySharpeningFilter.
    apply fold_preserves_cell. intros y r Hy. apply in_zrange in Hy.
    apply fold_preserves_cell. intros x r' Hx. apply in_zrange in Hx.
    cbv zeta. apply lookup_wr_ne.
    apply (interior_write_ne width height 1); assumption.
Qed.

(** Witness for [filters_border_invariant]: the corner of a 3x3 image
    keeps its value under both filters, while the centre is filtered. *)
Lemma filters_border_invariant_witness :
  applyMedianFilter [1; 2; 3; 4; 50; 6; 7; 8; 9] 3 3 1 false !! 0%nat = Some 1 /\
  applySharpeningFilter [1; 2; 3; 4; 50; 6; 7; 8; 9] 3 3 false !! 0%nat = Some 1 /\
  applyMedianFilter [1; 2; 3; 4; 50; 6; 7; 8; 9] 3 3 1 false !! 4%nat = Some 6.
Proof.
  destruct (filters_border_invariant [1; 2; 3; 4; 50; 6; 7; 8; 9] 3 3 1 false 0 0)
    as [Hm Hs]; [lia | lia |].
  split; [| split].
  - exact (Hm (or_introl eq_refl)).
  - exact (Hs (or_introl eq_refl)).
  - vm_compute. reflexivity.
Defined.

(* ------------------------------------------------------------------ *)
(** ** [applyEnhancedGrayscale] *)

Module EnhanceFacts.
Import Px Filters.
Open Scope Z_scope.

Lemma rd_wr_ne (l : list Z) (i j v : Z) : i <> j -> rd (wr l i v) j = rd l j.
Proof.
  intros Hne. unfold rd, wr.
  destruct (i <? 0) eqn:Ei; [reflexivity |].
  destruct (j <? 0) eqn:Ej; [reflexivity |].
  apply Z.ltb_ge in Ei, Ej. rewrite list_lookup_insert_ne; [reflexivity | lia].
Qed.

Lemma rd_wr_eq (l : list Z) (i v : Z) :
  0 <= i < Z.of_nat (length l) -> rd (wr l i v) i = v.
Proof.
  intros Hi. unfold rd, wr.
  replace (i <? 0) with false by (symmetry; apply Z.ltb_ge; lia).
  rewrite list_lookup_insert_eq; [reflexivity | lia].
Qed.

Lemma to_uint8_clamp_range (q : Q) : 0 <= to_uint8_clamp q <= 255.
Proof.
  unfold to_uint8_clamp, Qlt_bool.
  destruct (Qle_bool q 0) eqn:E0; [lia |].
  destruct (Qle_bool 255 q) eqn:E255; [lia |].
  assert (H0 : ~ (q <= 0)%Q) by (intros H; apply Qle_bool_iff in H; congruence).
  assert (H255 : ~ (255 <= q)%Q) by (intros H; apply Qle_bool_iff in H; congruence).
  apply Qnot_le_lt in H0, H255.
  pose proof (Qfloor_le q) as Hle. pose proof (Qlt_floor q) as Hlt.
  assert (Hf0 : 0 <= Qfloor q).
  { assert (Hq : (inject_Z 0 < inject_Z (Qfloor q + 1))%Q)
      by (apply (Qlt_trans _ q); assumption).
    rewrite <- Zlt_Qlt in Hq. lia. }
  assert (Hf255 : Qfloor q <= 254).
  { assert (Hq : (inject_Z (Qfloor q) < inject_Z 255)%Q)
      by (apply (Qle_lt_trans _ q); assumption).
    rewrite <- Zlt_Qlt in Hq. lia. }
  destruct (negb (Qle_bool (1#2) (q - inject_Z (Qfloor q)))); [lia |].
  destruct (negb (Qle_bool (q - inject_Z (Qfloor q)) (1#2))); [lia |].
  destruct (Z.even (Qfloor q)); lia.
Qed.

Lemma scaled_channel_range (c : Z) (ratio : Q) : 0 <= scaled_channel c ratio <= 255.
Proof. apply to_uint8_clamp_range. Qed.

Lemma NoDup_zrange (a b : Z) : List.NoDup (zrange a b).
Proof.
  unfold zrange. apply Finite.Injective_map_NoDup.
  - intros n m E. lia.
  - apply seq_NoDup.
Qed.

(** One iteration of the loop of [applyEnhancedGrayscale]. *)
Definition enhance_step (grayscale : list Z) (data : list Z) (k : Z) : list Z :=
  let i := (4 * k)%Z in
  let enhanced := rd grayscale k in
  let ratio := (inject_Z enhanced / enhanced_divisor (rd data i) (rd data (i + 1)) (rd data (i + 2)))%Q in
  let data := wr data i (scaled_channel (rd data i) ratio) in
  let data := wr data (i + 1) (scaled_channel (rd data (i + 1)) ratio) in
  wr data (i + 2) (scaled_channel (rd data (i + 2)) ratio).

Lemma applyEnhancedGrayscale_unfold (data grayscale : list Z) :
  applyEnhancedGrayscale data grayscale
  = fold_left (enhance_step grayscale) (zrange 0 ((Z.of_nat (length data) + 3) / 4)) data.
Proof. reflexivity. Qed.

Lemma length_enhance_step (g data : list Z) (k : Z) :
  length (enhance_step g data k) = length data.
Proof. unfold enhance_step. rewrite !length_wr. reflexivity. Qed.

Lemma enhance_step_other (g data : list Z) (k k0 c : Z) :
  k <> k0 -> 0 <= c < 4 ->
  rd (enhance_step g data k) (4 * k0 + c) = rd data (4 * k0 + c).
Proof.
  intros Hk Hc. unfold enhance_step. rewrite !rd_wr_ne by lia. reflexivity.
Qed.

Lemma enhance_step_other0 (g data : list Z) (k k0 : Z) :
  k <> k0 -> rd (enhance_step g data k) (4 * k0) = rd data (4 * k0).
Proof.
  intros Hk. rewrite <- (Z.add_0_r (4 * k0)). apply enhance_step_other; lia.
Qed.

(** The value the loop stores for channel [c] of pixel [k0], from the
    pixel's original channels. *)
Definition enhanced_channel (g : list Z) (r gr b : Z) (k0 c : Z) : Z :=
  let ratio := (inject_Z (rd g k0) / enhanced_divisor r gr b)%Q in
  scaled_channel (if c =? 0 then r else if c =? 1 then gr else b) ratio.

Lemma enhance_step_self (g data : list Z) (k0 c : Z) :
  0 <= k0 -> 4 * k0 + 2 < Z.of_nat (length data) -> 0 <= c <= 2 ->
  rd (enhance_step g data k0) (4 * k0 + c)
  = enhanced_channel g (rd data (4 * k0)) (rd data (4 * k0 + 1)) (rd data (4 * k0 + 2)) k0 c.
Proof.
  intros Hk Hlen Hc. unfold enhance_step, enhanced_channel. cbv zeta.
  assert (c = 0 \/ c = 1 \/ c = 2) as [-> | [-> | ->]] by lia; simpl Z.eqb; cbv iota.
  - rewrite !rd_wr_ne by lia. rewrite Z.add_0_r, rd_wr_eq by lia. reflexivity.
  - rewrite rd_wr_ne by lia. rewrite rd_wr_eq by (rewrite length_wr; lia).
    rewrite rd_wr_ne by lia. reflexivity.
  - rewrite rd_wr_eq by (rewrite !length_wr; lia).
    rewrite !rd_wr_ne by lia. reflexivity.
Qed.

Lemma fold_enhance_pixel (g : list Z) (xs : list Z) (data : list Z) (k0 c : Z) :
  List.NoDup xs -> 0 <= k0 -> 4 * k0 + 2 < Z.of_nat (length data) -> 0 <= c <= 2 ->
  In k0 xs ->
  rd (fold_left (enhance_step g) xs data) (4 * k0 + c)
  = enhanced_channel g (rd data (4 * k0)) (rd data (4 * k0 + 1)) (rd data (4 * k0 + 2)) k0 c.
Proof.
  revert data. induction xs as [|k xs IH]; intros data Hnd Hk0 Hlen Hc Hin;
    [destruct Hin |].
  inversion Hnd as [|k' xs' Hnotin Hnd']; subst. simpl.
  destruct (Z.eq_dec k k0) as [-> | Hne].
  - (* the iteration of pixel [k0]; later ones leave it alone *)
    assert (Hrest : forall ys d, ~ In k0 ys ->
              rd (fold_left (enhance_step g) ys d) (4 * k0 + c) = rd d (4 * k0 + c)).
    { induction ys as [|y ys IHy]; intros d Hn; [reflexivity |]. simpl.
      rewrite IHy by (intros H; apply Hn; right; exact H).
      apply enhance_step_other; [intros E; apply Hn; left; exact E | lia]. }
    rewrite Hrest by exact Hnotin. apply enhance_step_self; assumption.
  - destruct Hin as [E | Hin]; [congruence |].
    rewrite IH; [| exact Hnd' | exact Hk0 | rewrite length_enhance_step; exact Hlen | exact Hc | exact Hin].
    rewrite !enhance_step_other by lia. rewrite enhance_step_other0 by lia. reflexivity.
Qed.

End EnhanceFacts.

Import EnhanceFacts.
Open Scope Z_scope.

(** C8 (counterexample): the divisor is not floored at 1. The code
    substitutes 1 only when the average of R, G, B is 0, so the pixel
    (R, G, B) = (1, 0, 0) is divided by its average 1/3, and with an
    enhanced luminance of 3 its red channel becomes 9 rather than 3. *)
Lemma enhanced_divisor_below_one :
  (enhanced_divisor 1 0 0 < 1)%Q /\
  applyEnhancedGrayscale [1; 0; 0; 255] [3] = [9; 0; 0; 255].
Proof. split; reflexivity. Qed.

(** C8 (amended): for every complete pixel [k] of [data], the divisor of
    the ratio is the average of R, G, B when that average is nonzero and 1
    when it is zero (so it is never zero, but it can be 1/3 or 2/3); each
    of R, G, B is stored as its product with the ratio clamped to
    [[0, 255]] (and rounded by the clamped array). *)
Theorem applyEnhancedGrayscale_divisor_and_clamp (data grayscale : list Z) (k c : Z) :
  0 <= k -> 4 * k + 2 < Z.of_nat (length data) -> 0 <= c <= 2 ->
  let r := rd data (4 * k) in
  let gr := rd data (4 * k + 1) in
  let b := rd data (4 * k + 2) in
  let d := enhanced_divisor r gr b in
  let ch := if c =? 0 then r else if c =? 1 then gr else b in
  d = (if r + gr + b =? 0 then 1%Q else (inject_Z (r + gr + b) / 3)%Q) /\
  ~ (d == 0)%Q /\
  rd (applyEnhancedGrayscale data grayscale) (4 * k + c)
    = to_uint8_clamp (Qclamp255 (inject_Z ch * (inject_Z (rd grayscale k) / d))) /\
  0 <= rd (applyEnhancedGrayscale data grayscale) (4 * k + c) <= 255.
Proof.
  intros Hk Hlen Hc. cbv zeta.
  assert (Hd : enhanced_divisor (rd data (4 * k)) (rd data (4 * k + 1)) (rd data (4 * k + 2))
               = (if rd data (4 * k) + rd data (4 * k + 1) + rd data (4 * k + 2) =? 0
                  then 1%Q
                  else (inject_Z (rd data (4 * k) + rd data (4 * k + 1) + rd data (4 * k + 2)) / 3)%Q)).
  { unfold enhanced_divisor, js_or_one.
    set (sm := rd data (4 * k) + rd data (4 * k + 1) + rd data (4 * k + 2)).
    destruct (sm =? 0) eqn:Es.
    - apply Z.eqb_eq in Es. rewrite Es. reflexivity.
    - apply Z.eqb_neq in Es.
      destruct (Qeq_bool (inject_Z sm / 3) 0) eqn:Eq; [| reflexivity].
      apply Qeq_bool_iff in Eq. exfalso. apply Es.
      assert (E3 : (inject_Z sm == 0 * 3)%Q).
      { rewrite <- Eq. field. }
      rewrite Qmult_0_l in E3. apply (proj1 (inject_Z_injective sm 0)). exact E3. }
  assert (Hval : rd (applyEnhancedGrayscale data grayscale) (4 * k + c)
      = enhanced_channel grayscale (rd data (4 * k)) (rd data (4 * k + 1)) (rd data (4 * k + 2)) k c).
  { rewrite applyEnhancedGrayscale_unfold. apply fold_enhance_pixel;
      [apply NoDup_zrange | exact Hk | exact Hlen | exact Hc |].
    apply in_zrange.
    assert (k + 1 <= (Z.of_nat (length data) + 3) / 4) by (apply Z.div_le_lower_bound; lia).
    lia. }
  split; [exact Hd | split; [| split]].
  - rewrite Hd. destruct (_ =? 0) eqn:Es.
    + discriminate.
    + apply Z.eqb_neq in Es. intros E. apply Es.
      assert (E3 : (inject_Z (rd data (4 * k) + rd data (4 * k + 1) + rd data (4 * k + 2)) == 0 * 3)%Q).
      { rewrite <- E. field. }
      rewrite Qmult_0_l in E3. apply (proj1 (inject_Z_injective _ 0)). exact E3.
  - rewrite Hval. reflexivity.
  - rewrite Hval. apply scaled_channel_range.
Qed.

(** Witness for [applyEnhancedGrayscale_divisor_and_clamp]: the red
    channel of the pixel (200, 100, 0) with enhanced luminance 200. *)
Lemma applyEnhancedGrayscale_divisor_and_clamp_witness :
  rd (applyEnhancedGrayscale [200; 100; 0; 255] [200]) 0 = 255.
Proof.
  destruct (applyEnhancedGrayscale_divisor_and_clamp [200; 100; 0; 255] [200] 0 0)
    as (_ & _ & Hv & _); [lia | simpl; lia | lia |].
  refine (eq_trans Hv _). vm_compute. reflexivity.
Defined.

(* ------------------------------------------------------------------ *)
(** ** The in-flight flag *)

Module InferenceFacts.
Import Inference.
Open Scope nat_scope.

Definition is_detect (k : CallKind) : bool :=
  match k with Detect => true | Classify => false end.

Lemma detect_count_split (l : list CallKind) (i : nat) (k : CallKind) :
  l !! i = Some k ->
  length (List.filter is_detect l)
  = length (List.filter is_detect (take i l ++ drop (S i) l)) + (if is_detect k then 1 else 0).
Proof.
  intros Hi. rewrite <- (take_drop_middle l i k Hi) at 1.
  rewrite !List.filter_app, !length_app. simpl.
  destruct (is_detect k); simpl; lia.
Qed.

(** In every reachable world the flag is set exactly when one
    [detectObjects] call is pending, and at most one is. *)
Lemma flag_invariant (w : World) :
  reachable w -> detect_count w = (if isModelLoading w then 1 else 0)%nat.
Proof.
  unfold detect_count. induction 1 as [| k w Hr IH | i w w' Hr IH Hs].
  - reflexivity.
  - destruct k; simpl.
    + destruct (isModelLoading w) eqn:E; simpl; [rewrite E; exact IH |].
      rewrite IH. reflexivity.
    + exact IH.
  - unfold settle in Hs. destruct (pending w !! i) as [k|] eqn:Ei; [| discriminate].
    injection Hs as <-. simpl.
    pose proof (detect_count_split (pending w) i k Ei) as Hc.
    fold is_detect in IH. rewrite IH in Hc.
    destruct k; simpl in Hc |- *; fold is_detect.
    + destruct (isModelLoading w); lia.
    + lia.
Qed.

Lemma pending_detect_flag (w : World) :
  reachable w -> In Detect (pending w) -> isModelLoading w = true.
Proof.
  intros Hr Hin. pose proof (flag_invariant w Hr) as Hinv.
  unfold detect_count in Hinv.
  assert (Hpos : (0 < length (List.filter (fun k => match k with Detect => true | Classify => false end) (pending w)))%nat).
  { destruct (List.filter _ (pending w)) eqn:E; [| simpl; lia].
    exfalso. assert (Hf : In Detect (List.filter (fun k => match k with Detect => true | Classify => false end) (pending w)))
      by (apply filter_In; split; [exact Hin | reflexivity]).
    rewrite E in Hf. destruct Hf. }
  destruct (isModelLoading w); [reflexivity | lia].
Qed.

End InferenceFacts.

Import Inference InferenceFacts.

(** C9 (counterexample): the flag only guards [detectObjects]. While a
    [detectObjects] call is outstanding (flag set), a [classifyImage]
    request is not rejected as busy. *)
Lemma classify_not_busy_while_detecting :
  ~ (forall k w, reachable w -> isModelLoading w = true ->
       fst (call k w) = Rejected busy_message).
Proof.
  intros H.
  specialize (H Classify (snd (call Detect init))
                (reach_call Detect init reach_init) eq_refl).
  discriminate H.
Qed.

(** C9 (amended): while a [detectObjects] call is outstanding, the
    in-flight flag is set, and a second [detectObjects] call is rejected
    at once with "Another recognition is in progress. Please wait."
    without changing the flag or any other state; [classifyImage] neither
    reads nor writes the flag and is never rejected as busy. *)
Theorem detect_busy_while_pending (w : World) :
  reachable w ->
  (In Detect (pending w) ->
     isModelLoading w = true /\ call Detect w = (Rejected busy_message, w)) /\
  (fst (call Classify w) = Pending /\
   isModelLoading (snd (call Classify w)) = isModelLoading w).
Proof.
  intros Hr. split.
  - intros Hin. pose proof (pending_detect_flag w Hr Hin) as Hf.
    split; [exact Hf |]. simpl. rewrite Hf. reflexivity.
  - split; reflexivity.
Qed.

(** Witness for [detect_busy_while_pending]: after one [detectObjects]
    call has started, a second one is rejected as busy. *)
Lemma detect_busy_while_pending_witness :
  call Detect (snd (call Detect init))
  = (Rejected busy_message, snd (call Detect init)).
Proof.
  destruct (detect_busy_while_pending (snd (call Detect init))
              (reach_call Detect init reach_init)) as [H _].
  apply H. simpl. left. reflexivity.
Defined.

(* ------------------------------------------------------------------ *)
(** ** Constant tiles of [applyAdaptiveContrast] *)

Module ContrastFacts.
Import Px Filters.
Open Scope Z_scope.

(** Statistics [(sum, min, max)] after reading [n] more cells equal to
    [v]. *)
Definition absorb (v : Z) (st : Z * Z * Z) (n : nat) : Z * Z * Z :=
  match n with
  | O => st
  | S _ => let '(s, mn, mx) := st in (s + v * Z.of_nat n, Z.min mn v, Z.max mx v)
  end.

Lemma absorb_absorb (v : Z) (st : Z * Z * Z) (n m : nat) :
  absorb v (absorb v st n) m = absorb v st (n + m).
Proof.
  destruct st as [[s mn] mx]. destruct n as [|n]; [reflexivity |].
  destruct m as [|m]; simpl; [rewrite Nat.add_0_r; reflexivity |].
  f_equal; [f_equal; [lia |] | ].
  - rewrite <- Z.min_assoc, Z.min_id. reflexivity.
  - rewrite <- Z.max_assoc, Z.max_id. reflexivity.
Qed.

Lemma stats_row (grayscale : list Z) (width bx by_ y v : Z) (xs : list Z) st :
  (forall x, In x xs -> rd grayscale ((by_ + y) * width + (bx + x)) = v) ->
  fold_left (fun '(sum, mn, mx) x =>
      let value := rd grayscale ((by_ + y) * width + (bx + x)) in
      ((sum + value)%Z, Z.min mn value, Z.max mx value)) xs st
  = absorb v st (length xs).
Proof.
  revert st. induction xs as [|x xs IH]; intros st Hv; [reflexivity |].
  destruct st as [[s mn] mx]. simpl.
  rewrite IH by (intros x' Hx'; apply Hv; right; exact Hx').
  rewrite (Hv x (or_introl eq_refl)).
  replace ((s + v)%Z, Z.min mn v, Z.max mx v) with (absorb v (s, mn, mx) 1)
    by (simpl; rewrite Z.mul_1_r; reflexivity).
  rewrite absorb_absorb. reflexivity.
Qed.

Lemma stats_constant (grayscale : list Z) (width bx by_ bw bh v : Z) :
  0 < bw -> 0 < bh -> 0 <= v <= 255 ->
  (forall y x, 0 <= y < bh -> 0 <= x < bw ->
     rd grayscale ((by_ + y) * width + (bx + x)) = v) ->
  calculateBlockStats grayscale width bx by_ bw bh = (v * (bw * bh), v, v).
Proof.
  intros Hbw Hbh Hv Hconst. unfold calculateBlockStats.
  assert (Hgen : forall ys st, (forall y, In y ys -> 0 <= y < bh) ->
     fold_left (fun st y =>
       fold_left (fun '(sum, mn, mx) x =>
         let value := rd grayscale ((by_ + y) * width + (bx + x)) in
         ((sum + value)%Z, Z.min mn value, Z.max mx value))
         (zrange 0 bw) st) ys st
     = absorb v st (length ys * Z.to_nat bw)).
  { induction ys as [|y ys IH]; intros st Hys; [reflexivity |].
    simpl. rewrite (stats_row _ _ _ _ _ v).
    - rewrite IH by (intros y' Hy'; apply Hys; right; exact Hy').
      rewrite absorb_absorb. unfold zrange. rewrite length_map, length_seq.
      f_equal. lia.
    - intros x Hx. apply in_zrange in Hx. apply Hconst; [apply Hys; left; reflexivity | lia]. }
  rewrite Hgen by (intros y Hy; apply in_zrange in Hy; lia).
  unfold zrange. rewrite length_map, length_seq.
  destruct (Z.to_nat (bh - 0) * Z.to_nat bw)%nat eqn:E; [lia |].
  simpl. rewrite <- E. f_equal; [f_equal; [lia |] |]; lia.
Qed.

Open Scope Q_scope.

(** A constant block has mean [v] and contrast 0, so [1 / contrast] is
    [+Infinity] and the scale is the contrast limit. *)
Lemma block_params_constant (grayscale : list Z) (width bx by_ bw bh v : Z)
    (contrastLimit : Q) :
  (0 < bw)%Z -> (0 < bh)%Z -> (0 <= v <= 255)%Z ->
  (forall y x, (0 <= y < bh)%Z -> (0 <= x < bw)%Z ->
     rd grayscale ((by_ + y) * width + (bx + x)) = v) ->
  fst (block_params grayscale width bx by_ bw bh contrastLimit) == inject_Z v /\
  snd (block_params grayscale width bx by_ bw bh contrastLimit) = contrastLimit.
Proof.
  intros Hbw Hbh Hv Hconst. unfold block_params.
  rewrite (stats_constant grayscale width bx by_ bw bh v Hbw Hbh Hv Hconst).
  simpl. split.
  - rewrite inject_Z_mult. field.
    intros E. apply (proj1 (inject_Z_injective _ 0)) in E. lia.
  - rewrite Z.sub_diag. reflexivity.
Qed.

(** Storing a value equal to an integer [v] in [[0, 255]] stores [v]. *)
Lemma to_uint8_clamp_exact (q : Q) (v : Z) :
  q == inject_Z v -> (0 <= v <= 255)%Z -> to_uint8_clamp (Qclamp255 q) = v.
Proof.
  intros Hq Hv.
  assert (Hc : Qclamp255 q == inject_Z v).
  { assert (H1 : Qmin 255 (inject_Z v) == inject_Z v).
    { apply Q.min_r. change 255 with (inject_Z 255). rewrite <- Zle_Qle. lia. }
    assert (H2 : Qmax 0 (inject_Z v) == inject_Z v).
    { apply Q.max_r. change 0 with (inject_Z 0). rewrite <- Zle_Qle. lia. }
    unfold Qclamp255. rewrite Hq, H1, H2. reflexivity. }
  set (q' := Qclamp255 q) in *. clearbody q'.
  unfold to_uint8_clamp, Qlt_bool.
  assert (E0 : Qle_bool q' 0 = (v =? 0)%Z).
  { destruct (Qle_bool q' 0) eqn:E; symmetry.
    - apply Qle_bool_iff in E. rewrite Hc in E. change 0 with (inject_Z 0) in E.
      rewrite <- Zle_Qle in E. apply Z.eqb_eq. lia.
    - apply Z.eqb_neq. intros ->. rewrite Hc in E. discriminate. }
  assert (E255 : Qle_bool 255 q' = (v =? 255)%Z).
  { destruct (Qle_bool 255 q') eqn:E; symmetry.
    - apply Qle_bool_iff in E. rewrite Hc in E. change 255 with (inject_Z 255) in E.
      rewrite <- Zle_Qle in E. apply Z.eqb_eq. lia.
    - apply Z.eqb_neq. intros ->. rewrite Hc in E. discriminate. }
  rewrite E0, E255.
  destruct (v =? 0)%Z eqn:Ev0; [apply Z.eqb_eq in Ev0; lia |].
  destruct (v =? 255)%Z eqn:Ev255; [apply Z.eqb_eq in Ev255; lia |].
  assert (Hf : Qfloor q' = v) by (rewrite Hc; apply Qfloor_Z).
  rewrite Hf.
  assert (Hd : q' - inject_Z v == 0) by (rewrite Hc; ring).
  replace (Qle_bool (1#2) (q' - inject_Z v)) with false; [reflexivity |].
  symmetry. apply not_true_iff_false. intros E. apply Qle_bool_iff in E.
  rewrite Hd in E. exact (E eq_refl).
Qed.

End ContrastFacts.

Module ContrastLoop.
Import Px Filters EnhanceFacts.
Open Scope Z_scope.

Lemma in_zsteps (b n s : Z) :
  0 < s -> In b (zsteps 0 n s) -> exists j, 0 <= j /\ b = s * j /\ b < n.
Proof.
  intros Hs Hin. unfold zsteps in Hin.
  replace (s <=? 0) with false in Hin by (symmetry; apply Z.leb_gt; exact Hs).
  apply in_map_iff in Hin as (k & <- & Hk). apply in_seq in Hk.
  exists (Z.of_nat k). split; [lia | split; [lia |]].
  pose proof (Z.mul_div_le (n - 0 + s - 1) s Hs) as Hq.
  assert (Z.of_nat k + 1 <= (n - 0 + s - 1) / s) by lia.
  nia.
Qed.

Lemma rd_wr_keep (r : list Z) (i idx val t : Z) :
  rd r idx = t -> (i <> idx \/ val = t) -> rd (wr r i val) idx = t.
Proof.
  intros Hr [Hne | ->].
  - rewrite rd_wr_ne by exact Hne. exact Hr.
  - destruct (Z.eq_dec i idx) as [-> | Hne]; [| rewrite rd_wr_ne by exact Hne; exact Hr].
    unfold rd, wr in *. destruct (idx <? 0); [exact Hr |].
    destruct (decide (Z.to_nat idx < length r)%nat) as [Hlt | Hge].
    + rewrite list_lookup_insert_eq by exact Hlt. reflexivity.
    + rewrite list_insert_ge by lia. exact Hr.
Qed.

Lemma fold_keep_rd {A} (xs : list A) (f : list Z -> A -> list Z) (r : list Z) (idx t : Z) :
  (forall a r, In a xs -> rd r idx = t -> rd (f r a) idx = t) ->
  rd r idx = t -> rd (fold_left f xs r) idx = t.
Proof.
  revert r. induction xs as [|a xs IH]; intros r Hstep Hr; [exact Hr |].
  simpl. apply IH.
  - intros a' r' Hin. apply Hstep. right. exact Hin.
  - apply Hstep; [left; reflexivity | exact Hr].
Qed.

(** Two pixels of tiles of the [blockSize] grid that share an index lie in
    the same tile. *)
Lemma tile_disjoint (s width jx jy jx' jy' x y x' y' : Z) :
  0 < s -> 0 <= jx -> 0 <= jy -> 0 <= jx' -> 0 <= jy' ->
  0 <= x < Z.min s (width - s * jx) -> 0 <= y < s ->
  0 <= x' < Z.min s (width - s * jx') -> 0 <= y' < s ->
  (s * jy' + y') * width + (s * jx' + x') = (s * jy + y) * width + (s * jx + x) ->
  jx' = jx /\ jy' = jy.
Proof.
  intros Hs Hjx Hjy Hjx' Hjy' Hx Hy Hx' Hy' E.
  destruct (row_major_inj width (s * jy' + y') (s * jx' + x') (s * jy + y) (s * jx + x))
    as [Er Ec]; [nia | nia | exact E |].
  destruct (row_major_inj s jy' y' jy y) as [Ejy _]; [lia | lia | lia |].
  destruct (row_major_inj s jx' x' jx x) as [Ejx _]; [lia | lia | lia |].
  split; assumption.
Qed.

End ContrastLoop.

Import ContrastFacts ContrastLoop.
Open Scope Z_scope.

(** C10: a tile of [applyAdaptiveContrast] whose luminance values are all
    equal has [max = min], hence contrast 0; [1 / contrast] is then
    [+Infinity], the scale is the contrast limit, the mean is the common
    value, and every pixel of the tile comes out unchanged. *)
Theorem adaptiveContrast_constant_tile (grayscale : list Z) (width height blockSize : Z)
    (maxContrast : Q) (isDetection : bool) (bx by_ v : Z) :
  0 < blockSize ->
  In bx (zsteps 0 width blockSize) -> In by_ (zsteps 0 height blockSize) ->
  Forall (fun z => 0 <= z <= 255) grayscale ->
  Z.of_nat (length grayscale) = width * height ->
  let bw := Z.min blockSize (width - bx) in
  let bh := Z.min blockSize (height - by_) in
  let contrastLimit := if isDetection then (3#2)%Q else maxContrast in
  (forall y x, 0 <= y < bh -> 0 <= x < bw ->
     rd grayscale ((by_ + y) * width + (bx + x)) = v) ->
  (fst (block_params grayscale width bx by_ bw bh contrastLimit) == inject_Z v)%Q /\
  snd (block_params grayscale width bx by_ bw bh contrastLimit) = contrastLimit /\
  (forall y x, 0 <= y < bh -> 0 <= x < bw ->
     rd (applyAdaptiveContrast grayscale width height blockSize maxContrast isDetection)
        ((by_ + y) * width + (bx + x))
     = rd grayscale ((by_ + y) * width + (bx + x))).
Proof.
  intros Hs Hbx Hby Hrange Hlen. cbv zeta. intros Hconst.
  destruct (in_zsteps _ _ _ Hs Hbx) as (jx & Hjx & Ebx & Hbxw).
  destruct (in_zsteps _ _ _ Hs Hby) as (jy & Hjy & Eby & Hbyh).
  (* the common value is a cell of the buffer, hence a byte *)
  assert (Hv : 0 <= v <= 255).
  { rewrite <- (Hconst 0 0) by lia.
    assert (Hi : 0 <= (by_ + 0) * width + (bx + 0) < Z.of_nat (length grayscale)) by nia.
    unfold rd. replace (_ <? 0) with false by (symmetry; apply Z.ltb_ge; lia).
    destruct (grayscale !! Z.to_nat ((by_ + 0) * width + (bx + 0))) as [z|] eqn:Ez.
    - simpl. apply (Forall_lookup_1 _ _ _ _ Hrange Ez).
    - apply lookup_ge_None in Ez. lia. }
  pose proof (block_params_constant grayscale width bx by_
                (Z.min blockSize (width - bx)) (Z.min blockSize (height - by_)) v
                (if isDetection then (3#2)%Q else maxContrast)
                ltac:(lia) ltac:(lia) Hv Hconst) as [Hmean Hscale].
  split; [exact Hmean | split; [exact Hscale |]].
  intros y x Hy Hx.
  unfold applyAdaptiveContrast.
  apply fold_keep_rd; [| reflexivity].
  intros by' r Hby' Hr.
  apply fold_keep_rd; [| exact Hr].
  intros bx' r' Hbx' Hr'.
  destruct (in_zsteps _ _ _ Hs Hbx') as (jx' & Hjx' & Ebx' & Hbxw').
  destruct (in_zsteps _ _ _ Hs Hby') as (jy' & Hjy' & Eby' & Hbyh').
  destruct (block_params grayscale width bx' by' _ _ _) as [mean scale] eqn:Ebp.
  unfold enhanceBlockContrast.
  apply fold_keep_rd; [| exact Hr'].
  intros y' r2 Hy' Hr2. apply in_zrange in Hy'.
  apply fold_keep_rd; [| exact Hr2].
  intros x' r3 Hx' Hr3. apply in_zrange in Hx'.
  cbv zeta. apply rd_wr_keep; [exact Hr3 |].
  destruct (Z.eq_dec ((by' + y') * width + (bx' + x')) ((by_ + y) * width + (bx + x)))
    as [E | Hne]; [right | left; exact Hne].
  subst bx by_ bx' by'.
  destruct (tile_disjoint blockSize width jx jy jx' jy' x y x' y') as [-> ->];
    [lia | lia | lia | lia | lia | lia | lia | lia | lia | exact E |].
  rewrite Ebp in Hmean, Hscale. simpl in Hmean, Hscale. subst scale.
  rewrite (Hconst y' x') by lia. rewrite (Hconst y x) by lia.
  apply to_uint8_clamp_exact; [| exact Hv].
  rewrite Hmean. ring.
Qed.

(** Witness for [adaptiveContrast_constant_tile]: in a 4x3 buffer with
    2x2 tiles, the constant top-left tile of 10s is left as it is. *)
Lemma adaptiveContrast_constant_tile_witness :
  rd (applyAdaptiveContrast [10; 10; 10; 20; 10; 10; 10; 20; 10; 10; 10; 200] 4 3 2 2 false)
     ((0 + 1) * 4 + (0 + 1))
  = rd [10; 10; 10; 20; 10; 10; 10; 20; 10; 10; 10; 200] ((0 + 1) * 4 + (0 + 1)).
Proof.
  destruct (adaptiveContrast_constant_tile
              [10; 10; 10; 20; 10; 10; 10; 20; 10; 10; 10; 200] 4 3 2 2 false 0 0 10)
    as (_ & _ & H).
  - lia.
  - vm_compute. left. reflexivity.
  - vm_compute. left. reflexivity.
  - repeat constructor; discriminate.
  - reflexivity.
  - intros y x Hy Hx. simpl in Hy, Hx.
    assert (y = 0 \/ y = 1) as [-> | ->] by lia;
    assert (x = 0 \/ x = 1) as [-> | ->] by lia; reflexivity.
  - apply H; simpl; lia.
Defined.

(* ================================================================== *)
(** * Further properties of the pipeline *)

(* ------------------------------------------------------------------ *)
(** ** Loops over typed arrays *)

Module BufferFacts.
Import Px Filters EnhanceFacts ContrastLoop.
Open Scope Z_scope.

(** A cell of a [Uint8ClampedArray]. *)
Definition byte (z : Z) : Prop := 0 <= z <= 255.

Lemma fold_inv {A} (I : list Z -> Prop) (xs : list A) (f : list Z -> A -> list Z)
    (r : list Z) :
  (forall a r, In a xs -> I r -> I (f r a)) -> I r -> I (fold_left f xs r).
Proof.
  revert r. induction xs as [|a xs IH]; intros r Hstep Hr; [exact Hr |].
  simpl. apply IH.
  - intros a' r' Hin. apply Hstep. right. exact Hin.
  - apply Hstep; [left; reflexivity | exact Hr].
Qed.

Lemma fold_fix {A} (xs : list A) (f : list Z -> A -> list Z) (l : list Z) :
  (forall a, In a xs -> f l a = l) -> fold_left f xs l = l.
Proof.
  induction xs as [|a xs IH]; intros Hstep; [reflexivity |].
  simpl. rewrite (Hstep a (or_introl eq_refl)). apply IH.
  intros a' Hin. apply Hstep. right. exact Hin.
Qed.

Lemma Forall_wr (P : Z -> Prop) (l : list Z) (i v : Z) :
  Forall P l -> P v -> Forall P (wr l i v).
Proof.
  intros Hl Hv. unfold wr. destruct (i <? 0); [exact Hl |].
  apply Forall_insert; assumption.
Qed.

Lemma rd_Forall (P : Z -> Prop) (l : list Z) (i : Z) :
  P 0 -> Forall P l -> P (rd l i).
Proof.
  intros H0 Hl. unfold rd. destruct (i <? 0); [exact H0 |].
  destruct (l !! Z.to_nat i) as [z|] eqn:E; simpl; [| exact H0].
  exact (Forall_lookup_1 _ _ _ _ Hl E).
Qed.

Lemma rd_byte (l : list Z) (i : Z) : Forall byte l -> byte (rd l i).
Proof. apply rd_Forall. unfold byte. lia. Qed.

(** Storing the value a cell already holds changes nothing; a store
    outside the array is ignored. *)
Lemma wr_id (l : list Z) (i v : Z) :
  (0 <= i < Z.of_nat (length l) -> rd l i = v) -> wr l i v = l.
Proof.
  intros H. unfold wr. destruct (i <? 0) eqn:E; [reflexivity |].
  apply Z.ltb_ge in E.
  destruct (decide (Z.to_nat i < length l)%nat) as [Hlt | Hge].
  - apply list_insert_id.
    specialize (H ltac:(lia)). unfold rd in H.
    replace (i <? 0) with false in H by (symmetry; apply Z.ltb_ge; exact E).
    destruct (l !! Z.to_nat i) as [z|] eqn:El.
    + simpl in H. subst. reflexivity.
    + apply lookup_ge_None in El. lia.
  - apply list_insert_ge. lia.
Qed.

Lemma rd_uniform (l : list Z) (v i : Z) :
  Forall (fun z => z = v) l -> 0 <= i < Z.of_nat (length l) -> rd l i = v.
Proof.
  intros Hl Hi. unfold rd.
  replace (i <? 0) with false by (symmetry; apply Z.ltb_ge; lia).
  destruct (l !! Z.to_nat i) as [z|] eqn:E.
  - exact (Forall_lookup_1 _ _ _ _ Hl E).
  - apply lookup_ge_None in E. lia.
Qed.

(** A list all of whose cells read as [v] is uniform. *)
Lemma uniform_of_rd (l : list Z) (v : Z) :
  (forall i, 0 <= i < Z.of_nat (length l) -> rd l i = v) -> Forall (fun z => z = v) l.
Proof.
  intros H. apply Forall_lookup_2. intros n z Hn.
  assert (Hlt : (n < length l)%nat) by (apply lookup_lt_Some in Hn; exact Hn).
  specialize (H (Z.of_nat n) ltac:(lia)). unfold rd in H.
  replace (Z.of_nat n <? 0) with false in H by (symmetry; apply Z.ltb_ge; lia).
  rewrite Nat2Z.id, Hn in H. exact H.
Qed.

(** A loop that stores, at each index [k] it visits once, a value [F k]
    computed from other data. *)
Lemma fold_wr_at (F : Z -> Z) (f : list Z -> Z -> list Z) (xs : list Z) (r : list Z) (k : Z) :
  (forall g j, f g j = wr g j (F j)) -> List.NoDup xs -> In k xs ->
  0 <= k < Z.of_nat (length r) ->
  rd (fold_left f xs r) k = F k.
Proof.
  intros Hf. revert r. induction xs as [|j xs IH]; intros r Hnd Hin Hk; [destruct Hin |].
  inversion Hnd as [|j' xs' Hnotin Hnd']; subst. simpl.
  destruct (Z.eq_dec j k) as [-> | Hne].
  - apply fold_keep_rd.
    + intros a r' Ha Hr'. rewrite Hf. rewrite rd_wr_ne; [exact Hr' |].
      intros E. subst. exact (Hnotin Ha).
    + rewrite Hf. apply rd_wr_eq. exact Hk.
  - destruct Hin as [E | Hin]; [congruence |].
    apply IH; [exact Hnd' | exact Hin |]. rewrite Hf, length_wr. exact Hk.
Qed.

End BufferFacts.

(* ------------------------------------------------------------------ *)
(** ** Rounding and stores *)

Module RoundFacts.
Import Px.
Open Scope Q_scope.

Lemma math_round_comp (p q : Q) : p == q -> math_round p = math_round q.
Proof. intros H. unfold math_round. apply Qfloor_comp. rewrite H. reflexivity. Qed.

Lemma math_round_Z (v : Z) : math_round (inject_Z v) = v.
Proof.
  unfold math_round, Qfloor, Qplus, inject_Z. cbn -[Z.div Z.mul Z.add].
  symmetry. apply (Z.div_unique _ _ _ 1); lia.
Qed.

Lemma math_round_range (q : Q) : 0 <= q -> q <= 255 -> (0 <= math_round q <= 255)%Z.
Proof.
  intros H0 H1. unfold math_round. split.
  - change 0%Z with (Qfloor (0 + (1#2))). apply Qfloor_resp_le. lra.
  - change 255%Z with (Qfloor (255 + (1#2))). apply Qfloor_resp_le. lra.
Qed.

(** Storing an integer in [[0, 255]] stores it. *)
Lemma to_uint8_clamp_Z (v : Z) : (0 <= v <= 255)%Z -> to_uint8_clamp (inject_Z v) = v.
Proof.
  intros Hv. unfold to_uint8_clamp, Qlt_bool. rewrite Qfloor_Z.
  destruct (Qle_bool (inject_Z v) 0) eqn:E0.
  { apply Qle_bool_iff in E0. change 0 with (inject_Z 0) in E0.
    rewrite <- Zle_Qle in E0. lia. }
  destruct (Qle_bool 255 (inject_Z v)) eqn:E1.
  { apply Qle_bool_iff in E1. change 255 with (inject_Z 255) in E1.
    rewrite <- Zle_Qle in E1. lia. }
  replace (Qle_bool (1#2) (inject_Z v - inject_Z v)) with false; [reflexivity |].
  symmetry. apply not_true_iff_false. intros E. apply Qle_bool_iff in E.
  assert (Hd : inject_Z v - inject_Z v == 0) by ring.
  rewrite Hd in E. exact (E eq_refl).
Qed.

(** The luminance [0.299 R + 0.587 G + 0.114 B] of [convertToGrayscale]. *)
Definition luma (r g b : Z) : Q :=
  (299#1000) * inject_Z r + (587#1000) * inject_Z g + (114#1000) * inject_Z b.

Lemma luma_range (r g b : Z) :
  (0 <= r <= 255)%Z -> (0 <= g <= 255)%Z -> (0 <= b <= 255)%Z ->
  0 <= luma r g b /\ luma r g b <= 255.
Proof.
  intros Hr Hg Hb. unfold luma, Qle, Qplus, Qmult, inject_Z. simpl. split; lia.
Qed.

Lemma luma_grey (v : Z) : luma v v v == inject_Z v.
Proof. unfold luma. ring. Qed.

End RoundFacts.

(* ------------------------------------------------------------------ *)
(** ** The filters: lengths, byte ranges and uniform images *)

Module FilterFacts.
Import Px Filters EnhanceFacts ContrastFacts ContrastLoop BufferFacts RoundFacts.
Open Scope Z_scope.

Lemma convertToGrayscale_unfold (data : list Z) :
  convertToGrayscale data
  = fold_left (fun g k => wr g k (to_uint8_clamp (inject_Z (math_round
        (luma (rd data (4 * k)) (rd data (4 * k + 1)) (rd data (4 * k + 2)))))))
      (zrange 0 ((Z.of_nat (length data) + 3) / 4))
      (repeat 0 (Z.to_nat (Z.of_nat (length data) / 4))).
Proof. reflexivity. Qed.

Lemma length_convertToGrayscale (data : list Z) :
  length (convertToGrayscale data) = (length data / 4)%nat.
Proof.
  rewrite convertToGrayscale_unfold.
  apply (fold_inv (fun g => length g = (length data / 4)%nat)).
  - intros k g _ Hg. rewrite length_wr. exact Hg.
  - rewrite repeat_length. rewrite <- (Nat2Z.id (length data / 4)).
    rewrite Nat2Z.inj_div. reflexivity.
Qed.

Lemma convertToGrayscale_bytes (data : list Z) : Forall byte (convertToGrayscale data).
Proof.
  rewrite convertToGrayscale_unfold.
  apply (fold_inv (Forall byte)).
  - intros k g _ Hg. apply Forall_wr; [exact Hg | apply to_uint8_clamp_range].
  - apply List.Forall_forall. intros z Hz. apply repeat_spec in Hz. subst. unfold byte. lia.
Qed.

Lemma convertToGrayscale_at (data : list Z) (k : Z) :
  0 <= k -> 4 * k + 3 < Z.of_nat (length data) ->
  rd (convertToGrayscale data) k
  = to_uint8_clamp (inject_Z (math_round
      (luma (rd data (4 * k)) (rd data (4 * k + 1)) (rd data (4 * k + 2))))).
Proof.
  intros Hk Hlen. rewrite convertToGrayscale_unfold.
  apply (fold_wr_at (fun k => to_uint8_clamp (inject_Z (math_round
        (luma (rd data (4 * k)) (rd data (4 * k + 1)) (rd data (4 * k + 2))))))).
  - reflexivity.
  - apply NoDup_zrange.
  - apply in_zrange. split; [exact Hk |].
    assert (k + 1 <= (Z.of_nat (length data) + 3) / 4) by (apply Z.div_le_lower_bound; lia).
    lia.
  - rewrite repeat_length. split; [exact Hk |].
    rewrite Z2Nat.id by (apply Z.div_pos; lia).
    assert (k + 1 <= Z.of_nat (length data) / 4) by (apply Z.div_le_lower_bound; lia).
    lia.
Qed.

(** A complete pixel of bytes gets [Math.round] of its luminance. *)
Lemma convertToGrayscale_luma (data : list Z) (k : Z) :
  Forall byte data -> 0 <= k -> 4 * k + 3 < Z.of_nat (length data) ->
  rd (convertToGrayscale data) k
  = math_round (luma (rd data (4 * k)) (rd data (4 * k + 1)) (rd data (4 * k + 2))).
Proof.
  intros Hb Hk Hlen. rewrite convertToGrayscale_at by assumption.
  destruct (luma_range (rd data (4 * k)) (rd data (4 * k + 1)) (rd data (4 * k + 2)))
    as [H0 H1]; try apply rd_byte; try exact Hb.
  apply to_uint8_clamp_Z. apply math_round_range; assumption.
Qed.

Lemma convertToGrayscale_grey_at (data : list Z) (k v : Z) :
  Forall byte data -> 0 <= k -> 4 * k + 3 < Z.of_nat (length data) ->
  rd data (4 * k) = v -> rd data (4 * k + 1) = v -> rd data (4 * k + 2) = v ->
  rd (convertToGrayscale data) k = v.
Proof.
  intros Hb Hk Hlen H0 H1 H2. rewrite convertToGrayscale_luma by assumption.
  rewrite H0, H1, H2. rewrite (math_round_comp _ _ (luma_grey v)). apply math_round_Z.
Qed.

End FilterFacts.

Module MedianFacts.
Import Px Filters LoopFacts BufferFacts.
Open Scope Z_scope.

Lemma insert_sorted_In (v x : Z) (l : list Z) :
  In x (insert_sorted v l) <-> v = x \/ In x l.
Proof.
  induction l as [|w l IH]; simpl; [tauto |].
  destruct (v <=? w); simpl; [tauto |]. rewrite IH. tauto.
Qed.

Lemma length_insert_sorted (v : Z) (l : list Z) :
  length (insert_sorted v l) = S (length l).
Proof.
  induction l as [|w l IH]; simpl; [reflexivity |].
  destruct (v <=? w); simpl; [reflexivity | rewrite IH; reflexivity].
Qed.

Lemma sort_numbers_In (x : Z) (l : list Z) : In x (sort_numbers l) <-> In x l.
Proof.
  unfold sort_numbers. induction l as [|a l IH]; simpl; [tauto |].
  rewrite insert_sorted_In, IH. tauto.
Qed.

Lemma length_sort_numbers (l : list Z) : length (sort_numbers l) = length l.
Proof.
  unfold sort_numbers. induction l as [|a l IH]; simpl; [reflexivity |].
  rewrite length_insert_sorted, IH. reflexivity.
Qed.

(** The median stored by [applyMedianFilter]: a collected value, or 0 for
    an empty window. *)
Lemma median_In (values : list Z) :
  let sorted := sort_numbers values in
  default 0 (sorted !! (length sorted / 2)%nat) = 0 \/
  In (default 0 (sorted !! (length sorted / 2)%nat)) values.
Proof.
  cbv zeta. destruct (sort_numbers values !! _) as [z|] eqn:E; simpl; [right | left; reflexivity].
  apply sort_numbers_In. apply list_elem_of_In. eapply list_elem_of_lookup_2. exact E.
Qed.

Lemma median_uniform (values : list Z) (v : Z) :
  values <> [] -> Forall (fun z => z = v) values ->
  let sorted := sort_numbers values in
  default 0 (sorted !! (length sorted / 2)%nat) = v.
Proof.
  intros Hne Hv. cbv zeta.
  assert (Hlen : (0 < length (sort_numbers values))%nat).
  { rewrite length_sort_numbers. destruct values; [congruence | simpl; lia]. }
  destruct (lookup_lt_is_Some_2 (sort_numbers values) (length (sort_numbers values) / 2)%nat)
    as [z Hz]; [apply Nat.div_lt; lia |].
  rewrite Hz. simpl.
  assert (Hin : In z values).
  { apply sort_numbers_In. apply list_elem_of_In. eapply list_elem_of_lookup_2. exact Hz. }
  exact (proj1 (List.Forall_forall _ _) Hv z Hin).
Qed.

Lemma window_In (temp : list Z) (width y x r z : Z) :
  In z (flat_map (fun dy =>
          map (fun dx => rd temp ((y + dy) * width + (x + dx))) (zrange (- r) (r + 1)))
        (zrange (- r) (r + 1))) ->
  exists dy dx, - r <= dy < r + 1 /\ - r <= dx < r + 1 /\
    z = rd temp ((y + dy) * width + (x + dx)).
Proof.
  intros Hz. apply in_flat_map in Hz as (dy & Hdy & Hz).
  apply in_map_iff in Hz as (dx & <- & Hdx).
  apply in_zrange in Hdy, Hdx. exists dy, dx. repeat split; lia.
Qed.

Lemma length_applyMedianFilter (g : list Z) (width height radius : Z) (isDetection : bool) :
  length (applyMedianFilter g width height radius isDetection) = length g.
Proof.
  unfold applyMedianFilter.
  apply (fold_inv (fun l => length l = length g)); [| reflexivity].
  intros y l _ Hl. apply (fold_inv (fun l => length l = length g)); [| exact Hl].
  intros x l' _ Hl'. cbv beta zeta. rewrite length_wr. exact Hl'.
Qed.

Lemma applyMedianFilter_bytes (g : list Z) (width height radius : Z) (isDetection : bool) :
  Forall byte g -> Forall byte (applyMedianFilter g width height radius isDetection).
Proof.
  intros Hg. unfold applyMedianFilter.
  apply (fold_inv (Forall byte)); [| exact Hg].
  intros y l _ Hl. apply (fold_inv (Forall byte)); [| exact Hl].
  intros x l' _ Hl'. cbv beta zeta. apply Forall_wr; [exact Hl' |].
  match goal with |- byte (default 0 (sort_numbers ?vs !! _)) =>
    destruct (median_In vs) as [E | Hin] end.
  - rewrite E. unfold byte. lia.
  - apply window_In in Hin as (dy & dx & _ & _ & ->). apply rd_byte. exact Hg.
Qed.

Lemma applyMedianFilter_uniform (g : list Z) (width height radius : Z) (isDetection : bool)
    (v : Z) :
  0 <= (if isDetection then 1 else radius) ->
  Forall (fun z => z = v) g -> Z.of_nat (length g) = width * height ->
  applyMedianFilter g width height radius isDetection = g.
Proof.
  intros Hr Hu Hlen. unfold applyMedianFilter.
  set (fr := if isDetection then 1 else radius) in *.
  apply fold_fix. intros y Hy. apply in_zrange in Hy.
  apply fold_fix. intros x Hx. apply in_zrange in Hx.
  cbv beta zeta. apply wr_id. intros Hi.
  rewrite (rd_uniform g v _ Hu Hi). symmetry. apply median_uniform.
  - intros E.
    assert (Hin : In (rd g ((y + - fr) * width + (x + - fr)))
                    (flat_map (fun dy => map (fun dx => rd g ((y + dy) * width + (x + dx)))
                       (zrange (- fr) (fr + 1))) (zrange (- fr) (fr + 1)))).
    { apply in_flat_map. exists (- fr). split; [apply in_zrange; lia |].
      apply in_map_iff. exists (- fr). split; [reflexivity | apply in_zrange; lia]. }
    rewrite E in Hin. destruct Hin.
  - apply List.Forall_forall. intros z Hz.
    apply window_In in Hz as (dy & dx & Hdy & Hdx & ->).
    apply (rd_uniform g v _ Hu).
    assert ((y + dy) * width <= (height - 1) * width) by (apply Z.mul_le_mono_nonneg_r; lia).
    assert (0 <= (y + dy) * width) by (apply Z.mul_nonneg_nonneg; lia).
    lia.
Qed.

End MedianFacts.

Module SharpenFacts.
Import Px Filters LoopFacts EnhanceFacts ContrastFacts BufferFacts.
Open Scope Z_scope.

Lemma sharpen_sum_uniform (R : Z -> Z -> Z) (v : Z) (isDetection : bool) :
  (forall ky kx, 0 <= ky < 3 -> 0 <= kx < 3 -> R ky kx = v) ->
  (fold_left (fun s ky =>
     fold_left (fun s kx => s + inject_Z (R ky kx) * kernel_at (sharpen_kernel isDetection) ky kx)
       (zrange 0 3) s) (zrange 0 3) 0 == inject_Z v)%Q.
Proof.
  intros H. change (zrange 0 3) with [0; 1; 2]. cbn [fold_left].
  rewrite !H by lia.
  set (K := kernel_at (sharpen_kernel isDetection)).
  assert (E : (0 + K 0%Z 0%Z + K 0%Z 1%Z + K 0%Z 2%Z + K 1%Z 0%Z + K 1%Z 1%Z + K 1%Z 2%Z + K 2%Z 0%Z + K 2%Z 1%Z + K 2%Z 2%Z == 1)%Q)
    by (subst K; destruct isDetection; vm_compute; reflexivity).
  generalize (inject_Z v) as c. intros c.
  transitivity (c * (0 + K 0%Z 0%Z + K 0%Z 1%Z + K 0%Z 2%Z + K 1%Z 0%Z + K 1%Z 1%Z + K 1%Z 2%Z + K 2%Z 0%Z + K 2%Z 1%Z + K 2%Z 2%Z))%Q;
    [ring | rewrite E; ring].
Qed.

Lemma length_applySharpeningFilter (g : list Z) (width height : Z) (isDetection : bool) :
  length (applySharpeningFilter g width height isDetection) = length g.
Proof.
  unfold applySharpeningFilter.
  apply (fold_inv (fun l => length l = length g)); [| reflexivity].
  intros y l _ Hl. apply (fold_inv (fun l => length l = length g)); [| exact Hl].
  intros x l' _ Hl'. cbv beta zeta. rewrite length_wr. exact Hl'.
Qed.

Lemma applySharpeningFilter_bytes (g : list Z) (width height : Z) (isDetection : bool) :
  Forall byte g -> Forall byte (applySharpeningFilter g width height isDetection).
Proof.
  intros Hg. unfold applySharpeningFilter.
  apply (fold_inv (Forall byte)); [| exact Hg].
  intros y l _ Hl. apply (fold_inv (Forall byte)); [| exact Hl].
  intros x l' _ Hl'. cbv beta zeta. apply Forall_wr; [exact Hl' | apply to_uint8_clamp_range].
Qed.

Lemma applySharpeningFilter_uniform (g : list Z) (width height : Z) (isDetection : bool) (v : Z) :
  0 <= v <= 255 -> Forall (fun z => z = v) g -> Z.of_nat (length g) = width * height ->
  applySharpeningFilter g width height isDetection = g.
Proof.
  intros Hv Hu Hlen. unfold applySharpeningFilter.
  apply fold_fix. intros y Hy. apply in_zrange in Hy.
  apply fold_fix. intros x Hx. apply in_zrange in Hx.
  cbv beta zeta. apply wr_id. intros Hi.
  rewrite (rd_uniform g v _ Hu Hi). symmetry. apply to_uint8_clamp_exact; [| exact Hv].
  apply (sharpen_sum_uniform (fun ky kx => rd g ((y + ky - 1) * width + (x + kx - 1)))).
  intros ky kx Hky Hkx. apply (rd_uniform g v _ Hu).
  assert ((y + ky - 1) * width <= (height - 1) * width) by (apply Z.mul_le_mono_nonneg_r; lia).
  assert (0 <= (y + ky - 1) * width) by (apply Z.mul_nonneg_nonneg; lia).
  lia.
Qed.

End SharpenFacts.

Module AdaptiveFacts.
Import Px Filters LoopFacts EnhanceFacts ContrastFacts ContrastLoop BufferFacts.
Open Scope Z_scope.

Lemma length_enhanceBlockContrast (g r : list Z) (width bx by_ bw bh : Z) (mean scale : Q) :
  length (enhanceBlockContrast g r width bx by_ bw bh mean scale) = length r.
Proof.
  unfold enhanceBlockContrast.
  apply (fold_inv (fun l => length l = length r)); [| reflexivity].
  intros y l _ Hl. apply (fold_inv (fun l => length l = length r)); [| exact Hl].
  intros x l' _ Hl'. cbv beta zeta. rewrite length_wr. exact Hl'.
Qed.

Lemma enhanceBlockContrast_bytes (g r : list Z) (width bx by_ bw bh : Z) (mean scale : Q) :
  Forall byte r -> Forall byte (enhanceBlockContrast g r width bx by_ bw bh mean scale).
Proof.
  intros Hr. unfold enhanceBlockContrast.
  apply (fold_inv (Forall byte)); [| exact Hr].
  intros y l _ Hl. apply (fold_inv (Forall byte)); [| exact Hl].
  intros x l' _ Hl'. cbv beta zeta. apply Forall_wr; [exact Hl' | apply to_uint8_clamp_range].
Qed.

Lemma length_applyAdaptiveContrast (g : list Z) (width height blockSize : Z)
    (maxContrast : Q) (isDetection : bool) :
  length (applyAdaptiveContrast g width height blockSize maxContrast isDetection) = length g.
Proof.
  unfold applyAdaptiveContrast.
  apply (fold_inv (fun l => length l = length g)); [| reflexivity].
  intros by_ l _ Hl. apply (fold_inv (fun l => length l = length g)); [| exact Hl].
  intros bx l' _ Hl'. cbv beta zeta.
  destruct (block_params _ _ _ _ _ _ _) as [mean scale].
  rewrite length_enhanceBlockContrast. exact Hl'.
Qed.

Lemma applyAdaptiveContrast_bytes (g : list Z) (width height blockSize : Z)
    (maxContrast : Q) (isDetection : bool) :
  Forall byte g -> Forall byte (applyAdaptiveContrast g width height blockSize maxContrast isDetection).
Proof.
  intros Hg. unfold applyAdaptiveContrast.
  apply (fold_inv (Forall byte)); [| exact Hg].
  intros by_ l _ Hl. apply (fold_inv (Forall byte)); [| exact Hl].
  intros bx l' _ Hl'. cbv beta zeta.
  destruct (block_params _ _ _ _ _ _ _) as [mean scale].
  apply enhanceBlockContrast_bytes. exact Hl'.
Qed.

Lemma applyAdaptiveContrast_uniform (g : list Z) (width height blockSize : Z)
    (maxContrast : Q) (isDetection : bool) (v : Z) :
  0 < blockSize -> 0 <= v <= 255 -> Forall (fun z => z = v) g ->
  Z.of_nat (length g) = width * height ->
  applyAdaptiveContrast g width height blockSize maxContrast isDetection = g.
Proof.
  intros Hs Hv Hu Hlen. unfold applyAdaptiveContrast.
  apply fold_fix. intros by_ Hby.
  apply fold_fix. intros bx Hbx. cbv beta zeta.
  destruct (in_zsteps _ _ _ Hs Hbx) as (jx & Hjx & Ebx & Hbxw).
  destruct (in_zsteps _ _ _ Hs Hby) as (jy & Hjy & Eby & Hbyh).
  assert (Hconst : forall y x, 0 <= y < Z.min blockSize (height - by_) ->
            0 <= x < Z.min blockSize (width - bx) ->
            rd g ((by_ + y) * width + (bx + x)) = v).
  { intros y x Hy Hx. apply (rd_uniform g v _ Hu).
    assert ((by_ + y) * width <= (height - 1) * width) by (apply Z.mul_le_mono_nonneg_r; lia).
    assert (0 <= (by_ + y) * width) by (apply Z.mul_nonneg_nonneg; lia).
    lia. }
  pose proof (block_params_constant g width bx by_
                (Z.min blockSize (width - bx)) (Z.min blockSize (height - by_)) v
                (if isDetection then (3#2)%Q else maxContrast)
                ltac:(lia) ltac:(lia) Hv Hconst) as [Hmean _].
  destruct (block_params _ _ _ _ _ _ _) as [mean scale]. simpl in Hmean.
  unfold enhanceBlockContrast.
  apply fold_fix. intros y _. apply fold_fix. intros x _. cbv beta zeta.
  apply wr_id. intros Hi. rewrite (rd_uniform g v _ Hu Hi).
  symmetry. apply to_uint8_clamp_exact; [| exact Hv].
  rewrite Hmean. ring.
Qed.

End AdaptiveFacts.

Module GreyFacts.
Import Px Filters LoopFacts EnhanceFacts ContrastFacts ContrastLoop BufferFacts.
Open Scope Z_scope.

Lemma length_applyEnhancedGrayscale (data g : list Z) :
  length (applyEnhancedGrayscale data g) = length data.
Proof.
  rewrite applyEnhancedGrayscale_unfold.
  apply (fold_inv (fun l => length l = length data)); [| reflexivity].
  intros k l _ Hl. rewrite length_enhance_step. exact Hl.
Qed.

Lemma applyEnhancedGrayscale_bytes (data g : list Z) :
  Forall byte data -> Forall byte (applyEnhancedGrayscale data g).
Proof.
  intros Hd. rewrite applyEnhancedGrayscale_unfold.
  apply (fold_inv (Forall byte)); [| exact Hd].
  intros k l _ Hl. unfold enhance_step. cbv zeta.
  repeat apply Forall_wr; try exact Hl; apply scaled_channel_range.
Qed.

Lemma applyEnhancedGrayscale_alpha (data g : list Z) (k : Z) :
  rd (applyEnhancedGrayscale data g) (4 * k + 3) = rd data (4 * k + 3).
Proof.
  rewrite applyEnhancedGrayscale_unfold. apply fold_keep_rd; [| reflexivity].
  intros k' l _ Hl. unfold enhance_step. cbv zeta.
  rewrite !rd_wr_ne by lia. exact Hl.
Qed.

Lemma grey_channel (v : Z) :
  0 <= v <= 255 -> scaled_channel v (inject_Z v / enhanced_divisor v v v) = v.
Proof.
  intros Hv. unfold scaled_channel. apply to_uint8_clamp_exact; [| exact Hv].
  unfold enhanced_divisor, js_or_one.
  destruct (Qeq_bool (inject_Z (v + v + v) / 3) 0) eqn:E.
  - apply Qeq_bool_iff in E.
    unfold Qeq, Qdiv, Qmult, Qinv, inject_Z in E. simpl in E.
    assert (v = 0) as -> by lia. reflexivity.
  - apply Qeq_bool_neq in E. rewrite !inject_Z_plus in *. field.
    intros H. apply E. rewrite H. reflexivity.
Qed.

Lemma enhance_step_grey (g data : list Z) (k : Z) :
  Forall byte data ->
  rd data (4 * k + 1) = rd data (4 * k) -> rd data (4 * k + 2) = rd data (4 * k) ->
  rd g k = rd data (4 * k) ->
  enhance_step g data k = data.
Proof.
  intros Hb H1 H2 Hg. unfold enhance_step. cbv zeta.
  rewrite H1, H2, Hg.
  assert (Hv : 0 <= rd data (4 * k) <= 255) by (apply rd_byte; exact Hb).
  rewrite (grey_channel _ Hv).
  rewrite (wr_id data (4 * k) (rd data (4 * k))) by (intros _; reflexivity).
  rewrite H1, (grey_channel _ Hv).
  rewrite (wr_id data (4 * k + 1) (rd data (4 * k))) by (intros _; exact H1).
  rewrite H2, (grey_channel _ Hv).
  apply wr_id. intros _. exact H2.
Qed.

Lemma applyEnhancedGrayscale_grey (data g : list Z) :
  Forall byte data ->
  (forall k, 0 <= k -> 4 * k < Z.of_nat (length data) ->
     rd data (4 * k + 1) = rd data (4 * k) /\ rd data (4 * k + 2) = rd data (4 * k) /\
     rd g k = rd data (4 * k)) ->
  applyEnhancedGrayscale data g = data.
Proof.
  intros Hb H. rewrite applyEnhancedGrayscale_unfold. apply fold_fix.
  intros k Hk. apply in_zrange in Hk.
  pose proof (Z.mul_div_le (Z.of_nat (length data) + 3) 4 ltac:(lia)).
  destruct (H k) as (H1 & H2 & Hg); [lia | lia |].
  apply enhance_step_grey; assumption.
Qed.

End GreyFacts.

Module ChainFacts.
Import Px Filters Preprocess LoopFacts EnhanceFacts BufferFacts RoundFacts FilterFacts
  MedianFacts SharpenFacts AdaptiveFacts GreyFacts.
Open Scope Z_scope.

Lemma length_convertToGrayscale_Z (data : list Z) (n : Z) :
  Z.of_nat (length data) = 4 * n -> Z.of_nat (length (convertToGrayscale data)) = n.
Proof.
  intros H. rewrite length_convertToGrayscale, Nat2Z.inj_div, H.
  change (Z.of_nat 4) with 4. rewrite Z.mul_comm. apply Z.div_mul. lia.
Qed.

Lemma enhanced_after_gray (data : list Z) (n : Z) :
  Forall byte data -> Z.of_nat (length data) = 4 * n ->
  (forall k, 0 <= k < n -> rd data (4 * k + 1) = rd data (4 * k) /\
                           rd data (4 * k + 2) = rd data (4 * k)) ->
  applyEnhancedGrayscale data (convertToGrayscale data) = data.
Proof.
  intros Hb Hl Hg. apply applyEnhancedGrayscale_grey; [exact Hb |].
  intros k Hk Hk4. destruct (Hg k) as [H1 H2]; [lia |].
  split; [exact H1 | split; [exact H2 |]].
  apply (convertToGrayscale_grey_at data k (rd data (4 * k))); auto; lia.
Qed.

Lemma convertToGrayscale_uniform (data : list Z) (n v : Z) :
  Forall byte data -> Z.of_nat (length data) = 4 * n ->
  (forall k, 0 <= k < n -> rd data (4 * k) = v /\ rd data (4 * k + 1) = v /\
                           rd data (4 * k + 2) = v) ->
  Forall (fun z => z = v) (convertToGrayscale data).
Proof.
  intros Hb Hl Hg. apply uniform_of_rd. intros i Hi.
  rewrite (length_convertToGrayscale_Z data n Hl) in Hi.
  destruct (Hg i Hi) as (H0 & H1 & H2).
  apply convertToGrayscale_grey_at; auto; lia.
Qed.

End ChainFacts.

Import BufferFacts RoundFacts FilterFacts MedianFacts SharpenFacts AdaptiveFacts GreyFacts
  ChainFacts.

Ltac bytes_tac :=
  apply List.Forall_forall; intros ? Hz; simpl in Hz;
  repeat (destruct Hz as [<- | Hz]; [unfold byte; lia |]); destruct Hz.

(** X1. [convertToGrayscale] stores one value per complete RGBA pixel
    (length [n / 4]) and every stored value is a byte. *)
Lemma convertToGrayscale_length_bytes (data : list Z) :
  length (convertToGrayscale data) = (length data / 4)%nat /\
  Forall byte (convertToGrayscale data).
Proof.
  split; [apply length_convertToGrayscale | apply convertToGrayscale_bytes].
Qed.



(** X3. A grey pixel ([r = g = b = v], bytes) is converted to exactly [v]. *)
Lemma convertToGrayscale_grey_pixel (data : list Z) (k v : Z) :
  Forall byte data -> 0 <= k -> 4 * k + 3 < Z.of_nat (length data) ->
  rd data (4 * k) = v -> rd data (4 * k + 1) = v -> rd data (4 * k + 2) = v ->
  rd (convertToGrayscale data) k = v.
Proof. apply convertToGrayscale_grey_at. Qed.

Lemma convertToGrayscale_grey_pixel_witness :
  rd (convertToGrayscale [0; 0; 0; 255; 77; 77; 77; 255]) 1 = 77.
Proof.
  apply (convertToGrayscale_grey_pixel _ 1 77);
    [bytes_tac | lia | vm_compute; reflexivity | reflexivity | reflexivity | reflexivity].
Defined.

(** X4. [applyMedianFilter] keeps the buffer length and, on a byte buffer,
    stores only bytes (each stored median is a value of the window). *)
Lemma applyMedianFilter_length_bytes (g : list Z) (width height radius : Z)
    (isDetection : bool) :
  length (applyMedianFilter g width height radius isDetection) = length g /\
  (Forall byte g -> Forall byte (applyMedianFilter g width height radius isDetection)).
Proof.
  split; [apply length_applyMedianFilter | apply applyMedianFilter_bytes].
Qed.

(** X5. [applyMedianFilter] leaves a uniform image unchanged. *)
Lemma applyMedianFilter_fixes_uniform (g : list Z) (width height radius : Z)
    (isDetection : bool) (v : Z) :
  0 <= (if isDetection then 1 else radius) ->
  Forall (fun z => z = v) g -> Z.of_nat (length g) = width * height ->
  applyMedianFilter g width height radius isDetection = g.
Proof. apply applyMedianFilter_uniform. Qed.

Lemma applyMedianFilter_fixes_uniform_witness :
  applyMedianFilter [7; 7; 7; 7; 7; 7; 7; 7; 7] 3 3 1 false = [7; 7; 7; 7; 7; 7; 7; 7; 7].
Proof.
  apply (applyMedianFilter_fixes_uniform _ 3 3 1 false 7);
    [lia | repeat constructor | reflexivity].
Defined.

(** X6. [applySharpeningFilter] keeps the buffer length and stores only
    bytes (interior values go through [Uint8ClampedArray]'s clamp). *)
Lemma applySharpeningFilter_length_bytes (g : list Z) (width height : Z) (isDetection : bool) :
  length (applySharpeningFilter g width height isDetection) = length g /\
  (Forall byte g -> Forall byte (applySharpeningFilter g width height isDetection)).
Proof.
  split; [apply length_applySharpeningFilter | apply applySharpeningFilter_bytes].
Qed.

(** X7. Both sharpening kernels sum to 1, so [applySharpeningFilter]
    leaves a uniform byte image unchanged. *)
Lemma applySharpeningFilter_fixes_uniform (g : list Z) (width height : Z)
    (isDetection : bool) (v : Z) :
  0 <= v <= 255 -> Forall (fun z => z = v) g -> Z.of_nat (length g) = width * height ->
  applySharpeningFilter g width height isDetection = g.
Proof. apply applySharpeningFilter_uniform. Qed.

Lemma applySharpeningFilter_fixes_uniform_witness :
  applySharpeningFilter [40; 40; 40; 40; 40; 40; 40; 40; 40] 3 3 true
  = [40; 40; 40; 40; 40; 40; 40; 40; 40].
Proof.
  apply (applySharpeningFilter_fixes_uniform _ 3 3 true 40);
    [lia | repeat constructor | reflexivity].
Defined.

(** X8. [applyAdaptiveContrast] keeps the buffer length and, on a byte
    buffer, stores only bytes. *)
Lemma applyAdaptiveContrast_length_bytes (g : list Z) (width height blockSize : Z)
    (maxContrast : Q) (isDetection : bool) :
  length (applyAdaptiveContrast g width height blockSize maxContrast isDetection) = length g /\
  (Forall byte g ->
   Forall byte (applyAdaptiveContrast g width height blockSize maxContrast isDetection)).
Proof.
  split; [apply length_applyAdaptiveContrast | apply applyAdaptiveContrast_bytes].
Qed.

(** X9. [applyAdaptiveContrast] leaves a uniform byte image unchanged:
    every tile's mean is the common value. *)
Lemma applyAdaptiveContrast_fixes_uniform (g : list Z) (width height blockSize : Z)
    (maxContrast : Q) (isDetection : bool) (v : Z) :
  0 < blockSize -> 0 <= v <= 255 -> Forall (fun z => z = v) g ->
  Z.of_nat (length g) = width * height ->
  applyAdaptiveContrast g width height blockSize maxContrast isDetection = g.
Proof. apply applyAdaptiveContrast_uniform. Qed.

Lemma applyAdaptiveContrast_fixes_uniform_witness :
  applyAdaptiveContrast [90; 90; 90; 90; 90; 90] 3 2 2 2%Q false = [90; 90; 90; 90; 90; 90].
Proof.
  apply (applyAdaptiveContrast_fixes_uniform _ 3 2 2 2%Q false 90);
    [lia | lia | repeat constructor | reflexivity].
Defined.

(** X10. [applyEnhancedGrayscale] keeps the length of the RGBA buffer,
    never touches an alpha byte, and on a byte buffer stores only bytes. *)
Lemma applyEnhancedGrayscale_length_alpha_bytes (data g : list Z) :
  length (applyEnhancedGrayscale data g) = length data /\
  (forall k, rd (applyEnhancedGrayscale data g) (4 * k + 3) = rd data (4 * k + 3)) /\
  (Forall byte data -> Forall byte (applyEnhancedGrayscale data g)).
Proof.
  split; [apply length_applyEnhancedGrayscale | split].
  - intros k. apply applyEnhancedGrayscale_alpha.
  - apply applyEnhancedGrayscale_bytes.
Qed.

(** X11. When each pixel is grey and the grayscale buffer holds that grey
    value, [applyEnhancedGrayscale] leaves the RGBA buffer unchanged (the
    ratio is 1, or the pixel is black). *)
Lemma applyEnhancedGrayscale_fixes_grey (data g : list Z) :
  Forall byte data ->
  (forall k, 0 <= k -> 4 * k < Z.of_nat (length data) ->
     rd data (4 * k + 1) = rd data (4 * k) /\ rd data (4 * k + 2) = rd data (4 * k) /\
     rd g k = rd data (4 * k)) ->
  applyEnhancedGrayscale data g = data.
Proof. apply applyEnhancedGrayscale_grey. Qed.

Lemma applyEnhancedGrayscale_fixes_grey_witness :
  applyEnhancedGrayscale [0; 0; 0; 255; 120; 120; 120; 255] [0; 120]
  = [0; 0; 0; 255; 120; 120; 120; 255].
Proof.
  apply applyEnhancedGrayscale_fixes_grey; [bytes_tac |].
  intros k Hk Hk4. change (Z.of_nat _) with 8 in Hk4.
  assert (k = 0 \/ k = 1) as [-> | ->] by lia; vm_compute; repeat split.
Defined.

(** X12. [applyImageFilters] keeps the length and every alpha byte of the
    RGBA buffer, and on a byte buffer stores only bytes, for all options. *)
Lemma applyImageFilters_length_alpha_bytes (data : list Z) (width height : Z)
    (options : Options) :
  length (applyImageFilters data width height options) = length data /\
  (forall k, rd (applyImageFilters data width height options) (4 * k + 3)
             = rd data (4 * k + 3)) /\
  (Forall byte data -> Forall byte (applyImageFilters data width height options)).
Proof.
  unfold applyImageFilters. destruct (is_detection options); [split; auto |].
  cbv zeta. split; [apply length_applyEnhancedGrayscale | split].
  - intros k. apply applyEnhancedGrayscale_alpha.
  - apply applyEnhancedGrayscale_bytes.
Qed.

(** X13. With denoising, sharpening and contrast enhancement all off,
    [applyImageFilters] returns a grey RGBA byte image unchanged. *)
Lemma applyImageFilters_grey_no_filters (data : list Z) (width height n : Z)
    (options : Options) :
  denoise options = false -> sharpen options = false -> enhanceContrast options = false ->
  Forall byte data -> Z.of_nat (length data) = 4 * n ->
  (forall k, 0 <= k < n -> rd data (4 * k + 1) = rd data (4 * k) /\
                           rd data (4 * k + 2) = rd data (4 * k)) ->
  applyImageFilters data width height options = data.
Proof.
  intros Hd Hs Hc Hb Hl Hg. unfold applyImageFilters.
  destruct (is_detection options); [reflexivity |]. cbv zeta.
  rewrite Hd, Hs, Hc. apply (enhanced_after_gray data n); assumption.
Qed.

Definition plain_options : Options :=
  {| maxSize := 1024; minSize := 224; quality := 9#10; format := ImageJpeg;
     task := Classification; enhanceContrast := false; denoise := false;
     sharpen := false; provider := None |}.

Lemma applyImageFilters_grey_no_filters_witness :
  applyImageFilters [30; 30; 30; 255; 200; 200; 200; 128] 2 1 plain_options
  = [30; 30; 30; 255; 200; 200; 200; 128].
Proof.
  apply (applyImageFilters_grey_no_filters _ 2 1 2);
    [reflexivity | reflexivity | reflexivity | bytes_tac | reflexivity |].
  intros k Hk. assert (k = 0 \/ k = 1) as [-> | ->] by lia; vm_compute; split; reflexivity.
Defined.

(** X14. For every option set, [applyImageFilters] returns a uniform grey
    RGBA byte image unchanged: each filter fixes a uniform grayscale buffer. *)
Lemma applyImageFilters_fixes_uniform_grey (data : list Z) (width height v : Z)
    (options : Options) :
  Forall byte data -> Z.of_nat (length data) = 4 * (width * height) -> 0 <= v <= 255 ->
  (forall k, 0 <= k < width * height ->
     rd data (4 * k) = v /\ rd data (4 * k + 1) = v /\ rd data (4 * k + 2) = v) ->
  applyImageFilters data width height options = data.
Proof.
  intros Hb Hl Hv Hg. unfold applyImageFilters.
  destruct (is_detection options); [reflexivity |]. cbv zeta.
  pose proof (convertToGrayscale_uniform data _ v Hb Hl Hg) as Hu.
  pose proof (length_convertToGrayscale_Z data _ Hl) as Hl0.
  set (g0 := convertToGrayscale data) in *.
  assert (H1 : (if denoise options then applyMedianFilter g0 width height 1 false else g0) = g0)
    by (destruct (denoise options); [apply (applyMedianFilter_uniform _ _ _ _ _ v); auto; lia
                                    | reflexivity]).
  rewrite H1.
  assert (H2 : (if sharpen options then applySharpeningFilter g0 width height false else g0) = g0)
    by (destruct (sharpen options); [apply (applySharpeningFilter_uniform _ _ _ _ v); auto
                                    | reflexivity]).
  rewrite H2.
  assert (H3 : (if enhanceContrast options then applyAdaptiveContrast g0 width height 8 2%Q false
                else g0) = g0)
    by (destruct (enhanceContrast options);
        [apply (applyAdaptiveContrast_uniform _ _ _ _ _ _ v); auto; lia | reflexivity]).
  rewrite H3. subst g0.
  apply (enhanced_after_gray data (width * height)); [exact Hb | exact Hl |].
  intros k Hk. destruct (Hg k Hk) as (H0 & H4 & H5). lia.
Qed.

Lemma applyImageFilters_fixes_uniform_grey_witness :
  applyImageFilters [64; 64; 64; 255; 64; 64; 64; 255; 64; 64; 64; 255; 64; 64; 64; 255] 2 2
    (merge_defaults no_options)
  = [64; 64; 64; 255; 64; 64; 64; 255; 64; 64; 64; 255; 64; 64; 64; 255].
Proof.
  apply (applyImageFilters_fixes_uniform_grey _ 2 2 64); [bytes_tac | reflexivity | lia |].
  intros k Hk. assert (k = 0 \/ k = 1 \/ k = 2 \/ k = 3) as [-> | [-> | [-> | ->]]] by lia;
    vm_compute; repeat split.
Defined.

Module QFacts.
Import Px.
Open Scope Q_scope.

Lemma Qlt_bool_true (a b : Q) : Qlt_bool a b = true -> a < b.
Proof.
  unfold Qlt_bool. intros H. apply Qnot_le_lt. intros H'.
  apply Qle_bool_iff in H'. rewrite H' in H. discriminate.
Qed.

Lemma Qlt_bool_false (a b : Q) : Qlt_bool a b = false -> b <= a.
Proof. unfold Qlt_bool. intros H. apply negb_false_iff in H. apply Qle_bool_iff. exact H. Qed.

Lemma Qnz_of_pos (q : Q) : 0 < q -> ~ q == 0.
Proof. intros H E. rewrite E in H. exact (Qlt_irrefl 0 H). Qed.

Lemma inject_Z_nz (z : Z) : (0 < z)%Z -> ~ inject_Z z == 0.
Proof. intros H E. unfold Qeq, inject_Z in E. simpl in E. lia. Qed.

End QFacts.

Module GeometryFacts.
Import Coords Px Label Letterbox QFacts.
Open Scope Q_scope.

Lemma label_rect_inside (X LY cw ch tw : Q) :
  tw + 16 <= cw -> 36 <= ch ->
  inside (drawLabel_rect (Qmax 0 (Qmin X (cw - (tw + 8 * 2))), Qmax 28 (Qmin LY (ch - 8)))
            (tw + 8 * 2) 28) cw ch.
Proof.
  intros Hw Hh. unfold inside, drawLabel_rect. cbn [fst snd x y width height].
  set (A := Qmax 0 (Qmin X (cw - (tw + 8 * 2)))).
  set (P := Qmax 28 (Qmin LY (ch - 8))).
  assert (HB0 : 0 <= Qmax 0 A) by apply Q.le_max_l.
  assert (HB1 : Qmax 0 A <= cw - (tw + 8 * 2)).
  { apply Q.max_lub; [lra |]. apply Q.max_lub; [lra | apply Q.le_min_r]. }
  assert (HC0 : 28 <= Qmax 0 P).
  { apply Qle_trans with P; [apply Q.le_max_l | apply Q.le_max_r]. }
  assert (HC1 : Qmax 0 P <= ch - 8).
  { apply Q.max_lub; [lra |]. apply Q.max_lub; [lra | apply Q.le_min_r]. }
  set (B := Qmax 0 A) in *. set (C := Qmax 0 P) in *. clearbody B C.
  repeat split; lra.
Qed.

Lemma letterbox_core (SW SH iw ih : Q) :
  0 < iw -> 0 < ih ->
  iw * Qmin (SW / iw) (SH / ih) <= SW /\ ih * Qmin (SW / iw) (SH / ih) <= SH /\
  (iw * Qmin (SW / iw) (SH / ih) == SW \/ ih * Qmin (SW / iw) (SH / ih) == SH).
Proof.
  intros Hw Hh.
  assert (E1 : iw * (SW / iw) == SW) by (field; apply Qnz_of_pos; exact Hw).
  assert (E2 : ih * (SH / ih) == SH) by (field; apply Qnz_of_pos; exact Hh).
  split; [| split].
  - apply Qle_trans with (iw * (SW / iw)); [| rewrite E1; apply Qle_refl].
    apply Qmult_le_l; [exact Hw | apply Q.le_min_l].
  - apply Qle_trans with (ih * (SH / ih)); [| rewrite E2; apply Qle_refl].
    apply Qmult_le_l; [exact Hh | apply Q.le_min_r].
  - destruct (Q.min_spec (SW / iw) (SH / ih)) as [[_ Hm] | [_ Hm]]; rewrite Hm;
      [left; exact E1 | right; exact E2].
Qed.

Lemma standard_dims_pos (modelId : string) :
  0 < standard_width modelId /\ 0 < standard_height modelId.
Proof.
  unfold standard_width, standard_height.
  destruct (String.eqb modelId "coco-ssd"); split; reflexivity.
Qed.

End GeometryFacts.

Module PipelineFacts.
Import Px Filters Preprocess PreprocessFacts GreyFacts.


End PipelineFacts.

Module StatsFacts.
Import Px Filters LoopFacts BufferFacts QFacts.
Open Scope Z_scope.

Lemma fold_inv_gen {A S} (I : S -> Prop) (xs : list A) (f : S -> A -> S) (s : S) :
  (forall a s, In a xs -> I s -> I (f s a)) -> I s -> I (fold_left f xs s).
Proof.
  revert s. induction xs as [|a xs IH]; intros s Hstep Hs; [exact Hs |].
  simpl. apply IH; [intros a' s' Hin; apply Hstep; right; exact Hin |].
  apply Hstep; [left; reflexivity | exact Hs].
Qed.

Lemma zrange_cons (a b : Z) : a < b -> zrange a b = a :: zrange (a + 1) b.
Proof.
  intros H. unfold zrange.
  replace (Z.to_nat (b - a)) with (S (Z.to_nat (b - (a + 1)))) by lia.
  simpl. f_equal; [lia |]. rewrite <- seq_shift, map_map. apply map_ext. intros k. lia.
Qed.

(** One step of the inner loop of [calculateBlockStats]. *)
Definition stat_step (g : list Z) (width bx by_ y : Z) : Z * Z * Z -> Z -> Z * Z * Z :=
  fun '(sum, mn, mx) x =>
    let value := rd g ((by_ + y) * width + (bx + x)) in
    ((sum + value)%Z, Z.min mn value, Z.max mx value).

Lemma calculateBlockStats_unfold (g : list Z) (width bx by_ bw bh : Z) :
  calculateBlockStats g width bx by_ bw bh
  = fold_left (fun st y => fold_left (stat_step g width bx by_ y) (zrange 0 bw) st)
      (zrange 0 bh) (0, 255, 0).
Proof. reflexivity. Qed.

(** A running [(sum, min, max)] after at least one byte was read. *)
Definition stats_seen (st : Z * Z * Z) : Prop :=
  let '(s, mn, mx) := st in 0 <= s /\ 0 <= mn /\ mn <= mx /\ mx <= 255.

Lemma stat_step_seen (g : list Z) (width bx by_ y x : Z) (st : Z * Z * Z) :
  Forall byte g -> (st = (0, 255, 0) \/ stats_seen st) ->
  stats_seen (stat_step g width bx by_ y st x).
Proof.
  intros Hg Hst. destruct st as [[s mn] mx]. unfold stat_step. cbv beta iota zeta.
  pose proof (rd_byte g ((by_ + y) * width + (bx + x)) Hg) as Hv. unfold byte in Hv.
  unfold stats_seen in *. destruct Hst as [E | Hst]; [injection E as -> -> -> |]; lia.
Qed.

Lemma calculateBlockStats_range (g : list Z) (width bx by_ bw bh : Z) :
  Forall byte g -> 0 < bw -> 0 < bh ->
  stats_seen (calculateBlockStats g width bx by_ bw bh).
Proof.
  intros Hg Hw Hh. rewrite calculateBlockStats_unfold.
  assert (Hrow : forall y st, stats_seen st ->
            stats_seen (fold_left (stat_step g width bx by_ y) (zrange 0 bw) st)).
  { intros y st Hst. apply (fold_inv_gen stats_seen); [| exact Hst].
    intros x st' _ Hst'. apply stat_step_seen; [exact Hg | right; exact Hst']. }
  rewrite (zrange_cons 0 bh Hh). cbn [fold_left].
  apply (fold_inv_gen stats_seen).
  - intros y st _ Hst. apply Hrow. exact Hst.
  - rewrite (zrange_cons 0 bw Hw). cbn [fold_left].
    apply (fold_inv_gen stats_seen).
    + intros x st' _ Hst'. apply stat_step_seen; [exact Hg | right; exact Hst'].
    + apply stat_step_seen; [exact Hg | left; reflexivity].
Qed.

End StatsFacts.

Module ScaleFacts.
Import Px Filters BufferFacts QFacts StatsFacts.
Open Scope Q_scope.

Lemma block_params_scale_bounds (g : list Z) (width bx by_ bw bh : Z) (contrastLimit : Q) :
  Forall byte g -> (0 < bw)%Z -> (0 < bh)%Z ->
  Qmin contrastLimit 1 <= snd (block_params g width bx by_ bw bh contrastLimit) /\
  snd (block_params g width bx by_ bw bh contrastLimit) <= contrastLimit.
Proof.
  intros Hg Hw Hh. pose proof (calculateBlockStats_range g width bx by_ bw bh Hg Hw Hh) as Hs.
  unfold block_params.
  destruct (calculateBlockStats g width bx by_ bw bh) as [[s mn] mx].
  unfold stats_seen in Hs. cbv beta iota zeta. cbn [snd].
  unfold js_inv. destruct (Qeq_bool (inject_Z (mx - mn) / 255) 0) eqn:Ez; cbn [js_min].
  - split; [apply Q.le_min_l | apply Qle_refl].
  - apply Qeq_bool_neq in Ez.
    set (c := inject_Z (mx - mn) / 255) in *.
    assert (Hd0 : 0 <= inject_Z (mx - mn)) by (change 0 with (inject_Z 0); rewrite <- Zle_Qle; lia).
    assert (Hd1 : inject_Z (mx - mn) <= 255)
      by (change 255 with (inject_Z 255); rewrite <- Zle_Qle; lia).
    assert (Hc0 : 0 <= c) by (apply Qle_shift_div_l; [reflexivity | lra]).
    assert (Hc1 : c <= 1) by (apply Qle_shift_div_r; [reflexivity | lra]).
    assert (Hc : 0 < c).
    { destruct (proj1 (Qle_lteq 0 c) Hc0) as [H | H]; [exact H |].
      exfalso. apply Ez. symmetry. exact H. }
    assert (Hinv : 1 <= 1 / c) by (apply Qle_shift_div_l; [exact Hc | lra]).
    split.
    + apply Q.min_glb; [apply Q.le_min_l |].
      apply Qle_trans with 1; [apply Q.le_min_r | exact Hinv].
    + apply Q.le_min_l.
Qed.

End ScaleFacts.

Import QFacts GeometryFacts PipelineFacts StatsFacts ScaleFacts.
Open Scope Z_scope.


(** X16. [preprocessImage] never upscales: the output is at most the
    natural size on each side. *)
Theorem preprocessImage_never_upscales (env : Env) (image : Image)
    (options : ProcessingOptions) (p : ProcessedImage) :
  snd (preprocessImage env image options) = inr p ->
  0 < naturalWidth image -> 0 < naturalHeight image ->
  out_width p <= naturalWidth image /\ out_height p <= naturalHeight image.
Proof.
  intros Hp Hw Hh. pose proof (preprocessImage_success_dims _ _ _ _ Hp) as E.
  set (T := target_max (merge_defaults options)) in E.
  set (w := naturalWidth image) in *. set (h := naturalHeight image) in *.
  unfold scale_dims in E.
  destruct ((T <? w) || (T <? h)) eqn:E1.
  - apply orb_true_iff in E1. rewrite !Z.ltb_lt in E1.
    destruct (h <? w) eqn:E2; injection E as E3 E4; rewrite E3, E4.
    + apply Z.ltb_lt in E2. pose proof (round_div_spec h T w Hw) as S.
      assert (h * T <= h * (w - 1)) by (apply Z.mul_le_mono_nonneg_l; lia).
      split; [lia | nia].
    + apply Z.ltb_ge in E2. pose proof (round_div_spec w T h Hh) as S.
      assert (w * T <= w * (h - 1)) by (apply Z.mul_le_mono_nonneg_l; lia).
      split; [nia | lia].
  - injection E as -> ->. lia.
Qed.

Lemma preprocessImage_never_upscales_witness :
  out_width {| out_width := 2; out_height := 1; out_pixels := [0; 0; 0; 0; 0; 0; 0; 0];
               out_format := ImageJpeg; out_quality := 9#10 |} <= 4 /\
  out_height {| out_width := 2; out_height := 1; out_pixels := [0; 0; 0; 0; 0; 0; 0; 0];
                out_format := ImageJpeg; out_quality := 9#10 |} <= 2.
Proof.
  apply (preprocessImage_never_upscales env_demo {| naturalWidth := 4; naturalHeight := 2 |}
           (small_options Classification)); [vm_compute; reflexivity | simpl; lia | simpl; lia].
Defined.

Import Label Letterbox.
Open Scope Z_scope.

(** X17. [calculateLabelPosition] never places the label left of the
    canvas or above its own height; it keeps the label inside the right
    edge when the label fits in the width, and above the bottom padding
    when the label height fits. *)
Lemma calculateLabelPosition_bounds (coords : Coordinates) (labelWidth labelHeight : Q)
    (canvas : CanvasDimensions) :
  let p := calculateLabelPosition coords labelWidth labelHeight canvas in
  (0 <= fst p)%Q /\ (labelHeight <= snd p)%Q /\
  ((labelWidth <= cwidth canvas)%Q -> (fst p <= cwidth canvas - labelWidth)%Q) /\
  ((labelHeight + 8 <= cheight canvas)%Q -> (snd p <= cheight canvas - 8)%Q).
Proof.
  cbv zeta. unfold calculateLabelPosition. cbv zeta. cbn [fst snd].
  split; [apply Q.le_max_l | split; [apply Q.le_max_l | split]]; intros H;
    (apply Q.max_lub; [lra | apply Q.le_min_r]).
Qed.

(** X18. The label background [drawRecognitionResult] draws lies inside
    the output canvas whenever the canvas is at least [textWidth + 16]
    wide and 36 high, wherever the box is. *)
Theorem recognition_label_inside (recognition : Recognition) (modelId : string)
    (canvasDimensions : CanvasDimensions) (scaling : ScalingParameters) (textWidth : Q) :
  (textWidth + 16 <= cwidth canvasDimensions)%Q -> (36 <= cheight canvasDimensions)%Q ->
  inside (recognition_label_rect recognition modelId canvasDimensions scaling textWidth)
    (cwidth canvasDimensions) (cheight canvasDimensions).
Proof.
  intros Hw Hh. unfold recognition_label_rect, calculateLabelPosition. cbv zeta.
  apply label_rect_inside; assumption.
Qed.

Lemma recognition_label_inside_witness :
  inside (recognition_label_rect {| bbox0 := 600; bbox1 := 5; bbox2 := 100; bbox3 := 30 |}
            "coco-ssd" {| cwidth := 640; cheight := 480 |}
            {| scaledWidth := 640; scaledHeight := 480; offsetX := 0; offsetY := 0 |} 50)
    640 480.
Proof.
  apply (recognition_label_inside _ _ {| cwidth := 640; cheight := 480 |});
    cbn [cwidth cheight]; lra.
Defined.

(** X19. [prepareInputCanvas] letterboxes: the canvas has the model's
    standard size, the image is drawn centred with non-negative offsets,
    it fills the width or the height, and its aspect ratio is kept. *)
Theorem prepareInputCanvas_letterbox (img : HtmlImage) (modelId : string) (ic : InputCanvas) :
  prepareInputCanvas true img modelId = Some ic ->
  (0 < img_width img)%Q -> (0 < img_height img)%Q ->
  canvas_width ic = standard_width modelId /\ canvas_height ic = standard_height modelId /\
  (0 <= x (drawn ic))%Q /\ (0 <= y (drawn ic))%Q /\
  (x (drawn ic) * 2 + width (drawn ic) == canvas_width ic)%Q /\
  (y (drawn ic) * 2 + height (drawn ic) == canvas_height ic)%Q /\
  (width (drawn ic) == canvas_width ic \/ height (drawn ic) == canvas_height ic)%Q /\
  (width (drawn ic) * img_height img == height (drawn ic) * img_width img)%Q.
Proof.
  intros H Hw Hh. unfold prepareInputCanvas in H. cbn [negb] in H. cbv zeta in H.
  injection H as <-. cbn [canvas_width canvas_height drawn x y width height].
  destruct (letterbox_core (standard_width modelId) (standard_height modelId) _ _ Hw Hh)
    as (H1 & H2 & H3).
  set (s := Qmin _ _) in *.
  split; [reflexivity | split; [reflexivity |]].
  split; [apply Qle_shift_div_l; [reflexivity | lra] |].
  split; [apply Qle_shift_div_l; [reflexivity | lra] |].
  split; [field |]. split; [field |].
  split; [exact H3 | ring].
Qed.

Lemma prepareInputCanvas_letterbox_witness :
  exists ic, prepareInputCanvas true
               {| img_width := 1000; img_height := 500; img_naturalWidth := 1000;
                  img_naturalHeight := 500 |} "coco-ssd" = Some ic /\
    (x (drawn ic) * 2 + width (drawn ic) == 640)%Q /\ (y (drawn ic) * 2 + height (drawn ic) == 480)%Q.
Proof.
  eexists. split; [reflexivity |].
  destruct (prepareInputCanvas_letterbox
              {| img_width := 1000; img_height := 500; img_naturalWidth := 1000;
                 img_naturalHeight := 500 |} "coco-ssd" _ eq_refl ltac:(simpl; lra) ltac:(simpl; lra))
    as (_ & _ & _ & _ & H1 & H2 & _).
  split; [exact H1 | exact H2].
Defined.

(** X20. For an origin+extent model, a box given in the image's intrinsic
    pixels, drawn onto the letterboxed input canvas and converted back by
    [convertCoordinates] with the [scaling] of [processImage], is the
    original box (when the image's [width]/[height] are its intrinsic
    size). *)
Theorem letterbox_convert_roundtrip (img : HtmlImage) (modelId : string) (ic : InputCanvas)
    (b : Coordinates) :
  prepareInputCanvas true img modelId = Some ic -> is_corner_pair_model modelId = false ->
  (0 < img_width img)%Q -> (0 < img_height img)%Q ->
  (img_naturalWidth img == img_width img)%Q -> (img_naturalHeight img == img_height img)%Q ->
  coords_eq (convertCoordinates (place_box img ic b) modelId (output_dims img)
               (processImage_scaling img ic)) b.
Proof.
  intros H Hm Hw Hh Enw Enh. unfold prepareInputCanvas in H. cbn [negb] in H. cbv zeta in H.
  injection H as <-.
  destruct (standard_dims_pos modelId) as [HSW HSH].
  assert (Hs : (0 < Qmin (standard_width modelId / img_width img)
                        (standard_height modelId / img_height img))%Q).
  { apply Q.min_glb_lt; apply Qlt_shift_div_l; lra. }
  unfold convertCoordinates, place_box, processImage_scaling, output_dims, coords_eq.
  change (includes modelId "detr" || includes modelId "yolos") with (is_corner_pair_model modelId).
  rewrite Hm.
  cbn [x y width height bbox0 bbox1 bbox2 bbox3 drawn cwidth cheight scaledWidth scaledHeight
       offsetX offsetY in_offsetX in_offsetY in_scale].
  rewrite Enw, Enh.
  set (s := Qmin _ _) in *.
  pose proof (Qnz_of_pos _ Hw). pose proof (Qnz_of_pos _ Hh). pose proof (Qnz_of_pos _ Hs).
  repeat split; field; repeat split; assumption.
Qed.

Lemma letterbox_convert_roundtrip_witness :
  exists ic, prepareInputCanvas true
               {| img_width := 1000; img_height := 500; img_naturalWidth := 1000;
                  img_naturalHeight := 500 |} "coco-ssd" = Some ic /\
    coords_eq (convertCoordinates
                 (place_box {| img_width := 1000; img_height := 500; img_naturalWidth := 1000;
                               img_naturalHeight := 500 |} ic
                    {| x := 100; y := 50; width := 200; height := 100 |})
                 "coco-ssd"
                 (output_dims {| img_width := 1000; img_height := 500; img_naturalWidth := 1000;
                                 img_naturalHeight := 500 |})
                 (processImage_scaling {| img_width := 1000; img_height := 500;
                                          img_naturalWidth := 1000; img_naturalHeight := 500 |} ic))
      {| x := 100; y := 50; width := 200; height := 100 |}.
Proof.
  eexists. split; [reflexivity |].
  apply letterbox_convert_roundtrip;
    [reflexivity | reflexivity | simpl; lra | simpl; lra | reflexivity | reflexivity].
Defined.

Import Detect.
Open Scope Z_scope.

(** X21. A DETR result of [detectObjects] already has its box as
    [xmin, ymin, width, height]; [convertCoordinates] for the DETR model id
    reads it as a corner pair and subtracts the origin a second time, so
    the drawn width is [(xmax - 2 xmin) * scaleX] and the drawn height
    [(ymax - 2 ymin) * scaleY]; only the origin is mapped as intended. *)
Theorem detr_box_subtracted_twice (d : HfDetection) (canvas : CanvasDimensions)
    (scaling : ScalingParameters) :
  let c := convertCoordinates (to_recognition (detr_object d)) "facebook/detr-resnet-50"
             canvas scaling in
  let scaleX := (cwidth canvas / scaledWidth scaling)%Q in
  let scaleY := (cheight canvas / scaledHeight scaling)%Q in
  (x c == box_xmin d * scaleX)%Q /\ (y c == box_ymin d * scaleY)%Q /\
  (width c == (box_xmax d - 2 * box_xmin d) * scaleX)%Q /\
  (height c == (box_ymax d - 2 * box_ymin d) * scaleY)%Q.
Proof.
  cbv zeta. unfold convertCoordinates.
  change (includes "facebook/detr-resnet-50" "detr" || includes "facebook/detr-resnet-50" "yolos")
    with (is_corner_pair_model "facebook/detr-resnet-50").
  rewrite detr_model_is_corner_pair.
  cbn [x y width height bbox0 bbox1 bbox2 bbox3 to_recognition detr_object obj_bbox nth].
  repeat split; ring.
Qed.

Definition detect_env_demo : DetectEnv :=
  {| image_wait := None; preprocess_result := None;
     coco_detect := inr [{| obj_class := "cat"; obj_score := 9#10; obj_bbox := [10; 20; 30; 40]%Q |};
                         {| obj_class := "dog"; obj_score := 1#10; obj_bbox := [0; 0; 5; 5]%Q |}];
     hf_detect := inr [] |}.

(** X22. When [detectObjects] resolves, it was called while idle, it
    leaves the flag cleared, the model id is one of the recognition models,
    and every result has a score above 0.35. *)
Theorem detectObjects_resolved (busy : bool) (modelId : string) (hfToken : option string)
    (env : DetectEnv) (rs : list DetectedObject) (b : bool) :
  detectObjects busy modelId hfToken env = (inr rs, b) ->
  busy = false /\ b = false /\ In modelId recognition_ids /\
  Forall (fun r => (35#100 < obj_score r)%Q) rs.
Proof.
  unfold detectObjects. destruct busy; [discriminate |].
  destruct (detect_body modelId hfToken env) as [e | rs'] eqn:E; [discriminate |].
  intros [= <- <-]. split; [reflexivity | split; [reflexivity |]].
  unfold detect_body in E.
  destruct (image_wait env); [discriminate |]. destruct (preprocess_result env); [discriminate |].
  destruct (String.eqb_spec modelId "coco-ssd") as [-> | Hc].
  - destruct (coco_detect env) as [| res]; [discriminate |]. injection E as <-.
    split; [left; reflexivity |].
    apply List.Forall_forall. intros r Hr. apply List.filter_In in Hr as [_ Hr].
    apply Qlt_bool_true. exact Hr.
  - destruct (String.eqb_spec modelId "facebook/detr-resnet-50") as [-> | Hd]; [| discriminate].
    destruct (token_missing hfToken); [discriminate |].
    destruct (hf_detect env) as [| resp]; [discriminate |]. injection E as <-.
    split; [right; left; reflexivity |].
    apply List.Forall_forall. intros r Hr. unfold detr_results in Hr.
    apply in_map_iff in Hr as (dd & <- & Hdd). apply List.filter_In in Hdd as [_ Hdd].
    apply Qlt_bool_true. exact Hdd.
Qed.

Lemma detectObjects_resolved_witness :
  In "coco-ssd"%string recognition_ids /\
  Forall (fun r => (35#100 < obj_score r)%Q)
    [{| obj_class := "cat"; obj_score := 9#10; obj_bbox := [10; 20; 30; 40]%Q |}].
Proof.
  destruct (detectObjects_resolved false "coco-ssd" None detect_env_demo
              [{| obj_class := "cat"; obj_score := 9#10; obj_bbox := [10; 20; 30; 40]%Q |}] false)
    as (_ & _ & H1 & H2); [vm_compute; reflexivity |].
  split; [exact H1 | exact H2].
Defined.

(** X23. A rejection of [detectObjects] leaves the flag as it was: while
    busy, with the busy message and the flag still set; otherwise with the
    flag cleared and a message wrapped as
    ["Object recognition failed: ... Please try again or choose a different model."]. *)
Theorem detectObjects_rejected (busy : bool) (modelId : string) (hfToken : option string)
    (env : DetectEnv) (msg : string) (b : bool) :
  detectObjects busy modelId hfToken env = (inl msg, b) ->
  b = busy /\ (busy = true -> msg = Inference.busy_message) /\
  (busy = false -> exists m, msg = String.append "Object recognition failed: "
                                  (String.append m ". Please try again or choose a different model.")).
Proof.
  unfold detectObjects. destruct busy.
  - intros [= <- <-]. split; [reflexivity | split; [reflexivity | discriminate]].
  - destruct (detect_body modelId hfToken env); [| discriminate].
    intros [= <- <-]. split; [reflexivity | split; [discriminate |]].
    intros _. eexists. reflexivity.
Qed.

Lemma detectObjects_rejected_witness :
  exists m, "Object recognition failed: Unsupported model: yolo. Please try again or choose a different model."%string
    = String.append "Object recognition failed: "
        (String.append m ". Please try again or choose a different model.").
Proof.
  destruct (detectObjects_rejected false "yolo" None detect_env_demo
    "Object recognition failed: Unsupported model: yolo. Please try again or choose a different model." false)
    as (_ & _ & H); [vm_compute; reflexivity |].
  exact (H eq_refl).
Defined.

(** X24. The recognition page calls [detectObjects] without a token, so
    for the DETR model it always rejects, once the image and the local
    preprocessing are ready, with the token message. *)
Theorem detectObjects_detr_without_token (env : DetectEnv) :
  image_wait env = None -> preprocess_result env = None ->
  detectObjects false "facebook/detr-resnet-50" None env
  = (inl "Object recognition failed: Hugging Face token is required. Please try again or choose a different model."%string,
     false).
Proof. intros H1 H2. unfold detectObjects, detect_body. rewrite H1, H2. reflexivity. Qed.

Lemma detectObjects_detr_without_token_witness :
  detectObjects false "facebook/detr-resnet-50" None detect_env_demo
  = (inl "Object recognition failed: Hugging Face token is required. Please try again or choose a different model."%string,
     false).
Proof. apply detectObjects_detr_without_token; reflexivity. Defined.

(** X25. A model id that is not a recognition model is rejected with the
    unsupported-model message, and the flag is cleared. *)
Theorem detectObjects_unsupported (modelId : string) (hfToken : option string) (env : DetectEnv) :
  ~ In modelId recognition_ids -> image_wait env = None -> preprocess_result env = None ->
  detectObjects false modelId hfToken env
  = (inl (String.append "Object recognition failed: "
            (String.append (String.append "Unsupported model: " modelId)
               ". Please try again or choose a different model.")), false).
Proof.
  intros Hn H1 H2. unfold detectObjects, detect_body. rewrite H1, H2.
  destruct (String.eqb_spec modelId "coco-ssd") as [-> | _];
    [exfalso; apply Hn; left; reflexivity |].
  destruct (String.eqb_spec modelId "facebook/detr-resnet-50") as [-> | _];
    [exfalso; apply Hn; right; left; reflexivity |].
  reflexivity.
Qed.

Lemma detectObjects_unsupported_witness :
  detectObjects false "yolo" None detect_env_demo
  = (inl (String.append "Object recognition failed: "
            (String.append (String.append "Unsupported model: " "yolo")
               ". Please try again or choose a different model.")), false).
Proof.
  apply detectObjects_unsupported; [| reflexivity | reflexivity].
  intros [H | [H | []]]; discriminate.
Defined.

(** X26. Every rejection of [classifyImage] is prefixed with
    ["Classification failed: "]; a model id that is not a classification
    model is rejected as unsupported, and ResNet-50 without a token is
    rejected with the token message whatever the services would answer. *)
Theorem classifyImage_rejections (modelId : string) (hfToken : option string) (env : ClassifyEnv) :
  (forall msg, classifyImage modelId hfToken env = inl msg ->
     exists m, msg = String.append "Classification failed: " m) /\
  (~ In modelId classification_ids ->
     classifyImage modelId hfToken env
     = inl (String.append "Classification failed: " (String.append "Unsupported model: " modelId))) /\
  (modelId = "microsoft/resnet-50"%string -> token_missing hfToken = true ->
     classifyImage modelId hfToken env
     = inl "Classification failed: Hugging Face token is required"%string).
Proof.
  split; [| split].
  - intros msg. unfold classifyImage. cbv zeta.
    match goal with |- match ?t with inl _ => _ | inr _ => _ end = _ -> _ => destruct t end;
      [intros [= <-]; eexists; reflexivity | discriminate].
  - intros Hn. unfold classifyImage.
    destruct (String.eqb_spec modelId "mobilenet") as [-> | _];
      [exfalso; apply Hn; left; reflexivity |].
    destruct (String.eqb_spec modelId "microsoft/resnet-50") as [-> | _];
      [exfalso; apply Hn; right; left; reflexivity |].
    reflexivity.
  - intros -> Ht. unfold classifyImage. rewrite Ht. reflexivity.
Qed.

(** X27. The size the local [preprocessImage] of ml-models.ts draws at:
    both sides at most 1024, positive, with the image's aspect ratio, and
    the natural size itself when it already fits. *)
Theorem ml_preprocess_size_fits (w h W H : Q) :
  ml_preprocess_size true w h = Some (W, H) -> (0 < w)%Q -> (0 < h)%Q ->
  (W <= MAX_SIZE)%Q /\ (H <= MAX_SIZE)%Q /\ (0 < W)%Q /\ (0 < H)%Q /\ (W * h == H * w)%Q /\
  ((w <= MAX_SIZE)%Q -> (h <= MAX_SIZE)%Q -> W = w /\ H = h).
Proof.
  unfold ml_preprocess_size, MAX_SIZE. cbn [negb]. cbv zeta. intros E Hw Hh.
  pose proof (Qnz_of_pos _ Hw). pose proof (Qnz_of_pos _ Hh).
  destruct (Qlt_bool 1024 w || Qlt_bool 1024 h) eqn:Eb.
  - apply orb_true_iff in Eb.
    destruct (Qlt_bool h w) eqn:Ehw; injection E as <- <-.
    + apply Qlt_bool_true in Ehw.
      assert (Hbig : (1024 < w)%Q)
        by (destruct Eb as [E1 | E1]; apply Qlt_bool_true in E1; lra).
      split; [lra |]. split; [apply Qle_shift_div_r; [exact Hw | lra] |].
      split; [lra |]. split; [apply Qlt_shift_div_l; [exact Hw | lra] |].
      split; [field; assumption |]. intros Hx _. lra.
    + apply Qlt_bool_false in Ehw.
      assert (Hbig : (1024 < h)%Q)
        by (destruct Eb as [E1 | E1]; apply Qlt_bool_true in E1; lra).
      split; [apply Qle_shift_div_r; [exact Hh | lra] |]. split; [lra |].
      split; [apply Qlt_shift_div_l; [exact Hh | lra] |]. split; [lra |].
      split; [field; assumption |]. intros _ Hx. lra.
  - apply orb_false_iff in Eb as [E1 E2].
    apply Qlt_bool_false in E1, E2. injection E as <- <-.
    repeat split; try assumption; ring.
Qed.

Lemma ml_preprocess_size_fits_witness :
  (1024 <= MAX_SIZE)%Q /\ (1000 * 1024 / 2048 <= MAX_SIZE)%Q.
Proof.
  destruct (ml_preprocess_size_fits 2048 1000 1024 (1000 * 1024 / 2048))
    as (H1 & H2 & _); [reflexivity | lra | lra |].
  split; [exact H1 | exact H2].
Defined.

Import Upload.
Open Scope Z_scope.

(** X28. [createResultCanvas] returns a size within [maxWidth x maxHeight]
    that never exceeds the image's own size, and the image's own size
    when it already fits. *)
Theorem createResultCanvas_bounds (w h maxWidth maxHeight W H : Z) :
  createResultCanvas true w h maxWidth maxHeight = Some (W, H) -> 0 < w -> 0 < h ->
  W <= maxWidth /\ H <= maxHeight /\ W <= w /\ H <= h /\
  (w <= maxWidth -> h <= maxHeight -> W = w /\ H = h).
Proof.
  intros E Hw Hh. unfold createResultCanvas in E. cbn [negb] in E. cbv zeta in E.
  assert (R1 : math_round (inject_Z maxWidth / (inject_Z w / inject_Z h)) = round_div maxWidth h w).
  { unfold round_div. apply math_round_comp. rewrite inject_Z_mult.
    pose proof (inject_Z_nz w Hw). pose proof (inject_Z_nz h Hh).
    field. split; assumption. }
  assert (R2 : math_round (inject_Z maxHeight * (inject_Z w / inject_Z h))
               = round_div maxHeight w h).
  { unfold round_div. apply math_round_comp. rewrite inject_Z_mult.
    pose proof (inject_Z_nz h Hh). field. assumption. }
  rewrite R1, R2 in E.
  pose proof (round_div_spec maxWidth h w Hw) as S1.
  pose proof (round_div_spec maxHeight w h Hh) as S2.
  set (r1 := round_div maxWidth h w) in *. set (r2 := round_div maxHeight w h) in *.
  clearbody r1 r2.
  destruct (maxWidth <? w) eqn:E1; [apply Z.ltb_lt in E1 | apply Z.ltb_ge in E1];
    cbv beta iota in E.
  - assert (Hr1 : r1 <= h).
    { assert (h * maxWidth <= h * (w - 1)) by (apply Z.mul_le_mono_nonneg_l; lia). nia. }
    destruct (maxHeight <? r1) eqn:E2; [apply Z.ltb_lt in E2 | apply Z.ltb_ge in E2];
      injection E as <- <-.
    + assert (w * maxHeight <= w * (r1 - 1)) by (apply Z.mul_le_mono_nonneg_l; lia).
      assert (r2 <= maxWidth) by nia.
      split; [lia | split; [lia | split; [| split; [lia | intros; lia]]]].
      assert (w * maxHeight <= w * (h - 1)) by (apply Z.mul_le_mono_nonneg_l; lia). nia.
    + split; [lia | split; [lia | split; [lia | split; [lia | intros; lia]]]].
  - destruct (maxHeight <? h) eqn:E2; [apply Z.ltb_lt in E2 | apply Z.ltb_ge in E2];
      injection E as <- <-.
    + assert (w * maxHeight <= w * (h - 1)) by (apply Z.mul_le_mono_nonneg_l; lia).
      assert (r2 <= w) by nia.
      split; [lia | split; [lia | split; [lia | split; [lia | intros; lia]]]].
    + lia.
Qed.

Lemma createResultCanvas_bounds_witness :
  341 <= 1024 /\ 1024 <= 1024 /\ 341 <= 1000 /\ 1024 <= 3000.
Proof.
  destruct (createResultCanvas_bounds 1000 3000 1024 1024 341 1024) as (H1 & H2 & H3 & H4 & _);
    [vm_compute; reflexivity | lia | lia |].
  split; [exact H1 | split; [exact H2 | split; [exact H3 | exact H4]]].
Defined.

(** X29. [validateImageFile] resolves (with the data URL) exactly when the
    file is within the size limit, has an [image/] type, is read, loads,
    and is at least 224x224; the size check comes first, then the type
    check, before anything is read. *)
Theorem validateImageFile_checks (file : File) (maxSizeMB : Q) (env : ReaderEnv) (url : string) :
  (validateImageFile file maxSizeMB env = inr url <->
     (inject_Z (file_size file) <= maxSizeMB * 1024 * 1024)%Q /\
     prefixb "image/" (file_type file) = true /\ read_result env = Some url /\
     exists nw nh, loaded_size env = Some (nw, nh) /\ 224 <= nw /\ 224 <= nh) /\
  ((maxSizeMB * 1024 * 1024 < inject_Z (file_size file))%Q ->
     validateImageFile file maxSizeMB env = inl (FileTooLarge maxSizeMB)) /\
  ((inject_Z (file_size file) <= maxSizeMB * 1024 * 1024)%Q ->
     prefixb "image/" (file_type file) = false ->
     validateImageFile file maxSizeMB env = inl InvalidType).
Proof.
  unfold validateImageFile.
  destruct (Qlt_bool (maxSizeMB * 1024 * 1024) (inject_Z (file_size file))) eqn:E1.
  - apply Qlt_bool_true in E1.
    split; [split; [discriminate | intros (H & _); lra] |].
    split; [reflexivity | intros H; lra].
  - apply Qlt_bool_false in E1.
    split; [| split; [intros H; lra | intros _ E2; rewrite E2; reflexivity]].
    destruct (prefixb "image/" (file_type file)) eqn:E2; cbn [negb];
      [| split; [discriminate | intros (_ & H & _); discriminate]].
    destruct (read_result env) as [u |] eqn:E3;
      [| split; [discriminate | intros (_ & _ & H & _); discriminate]].
    destruct (loaded_size env) as [[nw nh] |] eqn:E4;
      [| split; [discriminate | intros (_ & _ & _ & a & c & H & _); discriminate]].
    destruct ((nw <? 224)%Z || (nh <? 224)%Z) eqn:E5.
    + apply orb_true_iff in E5. rewrite !Z.ltb_lt in E5.
      split; [discriminate |].
      intros (_ & _ & _ & a & c & Hs & Ha & Hc). injection Hs as <- <-. lia.
    + apply orb_false_iff in E5 as [E5 E6]. apply Z.ltb_ge in E5, E6.
      split.
      * intros [= <-]. split; [exact E1 | split; [reflexivity | split; [reflexivity |]]].
        exists nw, nh. split; [reflexivity | lia].
      * intros (_ & _ & Hu & _). injection Hu as <-. reflexivity.
Qed.

(** X30. On a byte grayscale image, the contrast scale of a non-empty
    block never exceeds the contrast limit and is at least
    [min(limit, 1)]: adaptive contrast never flattens a block by a factor
    below 1 unless the limit itself is below 1. *)
Theorem block_params_scale (g : list Z) (width bx by_ bw bh : Z) (contrastLimit : Q) :
  Forall byte g -> 0 < bw -> 0 < bh ->
  (Qmin contrastLimit 1 <= snd (block_params g width bx by_ bw bh contrastLimit))%Q /\
  (snd (block_params g width bx by_ bw bh contrastLimit) <= contrastLimit)%Q.
Proof. apply block_params_scale_bounds. Qed.

Lemma block_params_scale_witness :
  (Qmin 2 1 <= snd (block_params [10; 200; 30; 90]%Z 2 0 0 2 2 2))%Q /\
  (snd (block_params [10; 200; 30; 90]%Z 2 0 0 2 2 2) <= 2)%Q.
Proof. apply block_params_scale; [bytes_tac | lia | lia]. Defined.
